(** * Dual Maze Escape: the maze-search module [src/pathfinder.ts]

    A shallow embedding of [findPath] and of the six search routines it
    dispatches to ([dfs], [bfs], [astar], [dfsExplore], [bfsExplore],
    [astarExplore]), followed by the properties of the search results.

    Conventions of the embedding.
    - Coordinates are integers ([Z]), as the numbers of a grid are; the string
      keys [`${x},${y}`] of the [Set<string>] and [Map<string, _>] objects are
      represented by the pair [(x, y)] they encode, the sets by
      [gset (Z * Z)] and the maps by [gmap].
    - A JavaScript array is a [list]; [queue.shift()] takes the head and
      [queue.push(n)] appends at the end.  The DFS stacks are used only through
      [push] and [pop], and are kept with their top at the head of the list.
    - Reading [maze[y][x]] outside the arrays yields [undefined], and the wall
      accessor then throws; this is the outcome [TypeError].
    - A [while] loop is run by [while_loop] with a bound on the number of
      iterations; [OutOfFuel] is the outcome of a loop that would need more.
      No routine ever has this outcome with the bound [loop_bound], as is
      shown with the properties of [findPath].
    - The record fields [x], [y], [path] of a search node are [sn_x], [sn_y],
      [sn_path]; the fields [x], [y], [g] of a node of [astarExplore] are
      [an_x], [an_y], [an_g]. *)

From stdpp Require Import gmap list sorting.
From Stdlib Require Import ZArith Lia.

Local Open Scope Z_scope.

(** ** Outcomes: a returned value, a thrown [TypeError], or an exhausted bound *)

Inductive outcome (A : Type) : Type :=
  | Ret (a : A)
  | TypeError
  | OutOfFuel.
Arguments Ret {A} a.
Arguments TypeError {A}.
Arguments OutOfFuel {A}.

Definition outcome_bind {A B : Type} (f : A → outcome B) (m : outcome A) : outcome B :=
  match m with
  | Ret a => f a
  | TypeError => TypeError
  | OutOfFuel => OutOfFuel
  end.

#[global] Instance outcome_ret : MRet outcome := λ A a, Ret a.
#[global] Instance outcome_mbind : MBind outcome := λ A B f m, outcome_bind f m.

(** [for (const a of l) { s = f(s, a) }] where the body may throw. *)
Fixpoint for_each {A S : Type} (f : S → A → outcome S) (l : list A) (s : S) : outcome S :=
  match l with
  | [] => Ret s
  | a :: l' => s' ← f s a; for_each f l' s'
  end.

(** One iteration of a [while] loop either goes on with a new state or leaves
    the function with a result. *)
Inductive step_result (S R : Type) : Type :=
  | Continue (s : S)
  | Done (r : R).
Arguments Continue {S R} s.
Arguments Done {S R} r.

Fixpoint while_loop {S R : Type} (fuel : nat) (body : S → outcome (step_result S R))
    (s : S) : outcome R :=
  match fuel with
  | O => OutOfFuel
  | S fuel' =>
      match body s with
      | Ret (Continue s') => while_loop fuel' body s'
      | Ret (Done r) => Ret r
      | TypeError => TypeError
      | OutOfFuel => OutOfFuel
      end
  end.

(** ** Data model *)

Inductive SearchMethod : Type :=
  | DFS | DFS_EXPLORE | BFS | BFS_EXPLORE | ASTAR | ASTAR_EXPLORE.

Definition SEARCH_METHODS : list SearchMethod :=
  [DFS; DFS_EXPLORE; BFS; BFS_EXPLORE; ASTAR; ASTAR_EXPLORE].

Definition getSearchMethods : list SearchMethod := SEARCH_METHODS.

Record MazeCell : Type := mkCell {
  north : bool;
  east : bool;
  south : bool;
  west : bool
}.

(** [MazeCell[][]], addressed [maze[y][x]]. *)
Abbreviation Maze := (list (list MazeCell)).
Abbreviation coord := (Z * Z)%type.

(** Nodes of [dfs], [bfs] and [astar]: fields [x], [y], [path]. *)
Record SearchNode : Type := mkNode {
  sn_x : Z;
  sn_y : Z;
  sn_path : list coord
}.

(** Nodes of [astarExplore]: fields [x], [y], [g]. *)
Record AStarExploreSearchNode : Type := mkANode {
  an_x : Z;
  an_y : Z;
  an_g : Z
}.

(** The entries of the [directions] arrays: [{ dx, dy, wall }]. *)
Record Direction : Type := mkDir {
  dx : Z;
  dy : Z;
  wall : MazeCell → bool
}.

Definition directions : list Direction :=
  [ mkDir 0 (-1) north;   (* Up *)
    mkDir 1 0 east;       (* Right *)
    mkDir 0 1 south;      (* Down *)
    mkDir (-1) 0 west ].  (* Left *)

(** [a[i]] for an integer [i]: [undefined] ([None]) outside the array. *)
Definition index {A : Type} (l : list A) (i : Z) : option A :=
  if decide (0 ≤ i) then l !! Z.to_nat i else None.

(** [wall(maze[y][x])]: throws when [maze[y]] or [maze[y][x]] is [undefined]. *)
Definition wallAt (w : MazeCell → bool) (maze : Maze) (x y : Z) : outcome bool :=
  match index maze y with
  | None => TypeError
  | Some row =>
      match index row x with
      | None => TypeError
      | Some cell => Ret (w cell)
      end
  end.

(** [maze[0].length]; [maze[0]] is [undefined] for an empty [maze]. *)
Definition maze_width (maze : Maze) : outcome Z :=
  match maze with
  | [] => TypeError
  | row :: _ => Ret (Z.of_nat (length row))
  end.

(** [maze.length] *)
Definition maze_height (maze : Maze) : Z := Z.of_nat (length maze).

(** [nx >= 0 && nx < W && ny >= 0 && ny < H] *)
Definition inBounds (W H nx ny : Z) : bool :=
  (0 <=? nx) && (nx <? W) && (0 <=? ny) && (ny <? H).

(** [nx >= 0 && nx < W && ny >= 0 && ny < H && !wall(maze[y][x])], the test
    every routine makes first on a neighbour; [&&] evaluates the wall only
    for a neighbour inside the bounds. *)
Definition canStep (maze : Maze) (W H x y : Z) (d : Direction) : outcome bool :=
  if inBounds W H (x + dx d) (y + dy d)
  then b ← wallAt (wall d) maze x y; Ret (negb b)
  else Ret false.

(** The bound given to every [while] loop: five iterations for each cell of
    the [W * H] rectangle and for the start, and two more. *)
Definition loop_bound (maze : Maze) : nat :=
  (5 * (length maze * length (hd [] maze) + 1) + 2)%nat.

(** ** [dfs] *)

Definition dfs_neighbor (maze : Maze) (W H x y : Z) (path : list coord)
    (visited : gset coord) (stack : list SearchNode) (d : Direction)
    : outcome (list SearchNode) :=
  let nx := x + dx d in
  let ny := y + dy d in
  ok ← canStep maze W H x y d;
  if ok : bool then
    if decide ((nx, ny) ∈ visited) then Ret stack
    else Ret (mkNode nx ny (path ++ [(nx, ny)]) :: stack)
  else Ret stack.

Definition dfs_body (endX endY : Z) (maze : Maze) (W H : Z)
    (st : list SearchNode * gset coord)
    : outcome (step_result (list SearchNode * gset coord) (list coord)) :=
  let '(stack, visited) := st in
  match stack with
  | [] => Ret (Done [])
  | node :: stack =>
      let x := sn_x node in
      let y := sn_y node in
      let path := sn_path node in
      if decide ((x, y) ∈ visited) then Ret (Continue (stack, visited))
      else
        let visited := {[ (x, y) ]} ∪ visited in
        if (x =? endX) && (y =? endY) then Ret (Done (tail path))
        else
          stack ← for_each (dfs_neighbor maze W H x y path visited) (reverse directions) stack;
          Ret (Continue (stack, visited))
  end.

Definition dfs (startX startY endX endY : Z) (maze : Maze) : outcome (list coord) :=
  let stack := [mkNode startX startY [(startX, startY)]] in
  let visited : gset coord := ∅ in
  MAZE_WIDTH ← maze_width maze;
  let MAZE_HEIGHT := maze_height maze in
  while_loop (loop_bound maze) (dfs_body endX endY maze MAZE_WIDTH MAZE_HEIGHT)
    (stack, visited).

(** ** [bfs] *)

Definition bfs_neighbor (maze : Maze) (W H x y : Z) (path : list coord)
    (st : list SearchNode * gset coord) (d : Direction)
    : outcome (list SearchNode * gset coord) :=
  let '(queue, visited) := st in
  let nx := x + dx d in
  let ny := y + dy d in
  ok ← canStep maze W H x y d;
  if (ok : bool) && bool_decide ((nx, ny) ∉ visited) then
    Ret (queue ++ [mkNode nx ny (path ++ [(nx, ny)])], {[ (nx, ny) ]} ∪ visited)
  else Ret st.

Definition bfs_body (endX endY : Z) (maze : Maze) (W H : Z)
    (st : list SearchNode * gset coord)
    : outcome (step_result (list SearchNode * gset coord) (list coord)) :=
  let '(queue, visited) := st in
  match queue with
  | [] => Ret (Done [])
  | node :: queue =>
      let x := sn_x node in
      let y := sn_y node in
      let path := sn_path node in
      if (x =? endX) && (y =? endY) then Ret (Done (tail path))
      else
        st' ← for_each (bfs_neighbor maze W H x y path) directions (queue, visited);
        Ret (Continue st')
  end.

Definition bfs (startX startY endX endY : Z) (maze : Maze) : outcome (list coord) :=
  let queue := [mkNode startX startY [(startX, startY)]] in
  let visited : gset coord := {[ (startX, startY) ]} in
  MAZE_WIDTH ← maze_width maze;
  let MAZE_HEIGHT := maze_height maze in
  while_loop (loop_bound maze) (bfs_body endX endY maze MAZE_WIDTH MAZE_HEIGHT)
    (queue, visited).

(** ** [dfsExplore] *)

Definition dfsExplore_neighbor (maze : Maze) (W H x y : Z)
    (visited : gset coord) (stack : list coord) (d : Direction)
    : outcome (list coord) :=
  let nx := x + dx d in
  let ny := y + dy d in
  ok ← canStep maze W H x y d;
  if (ok : bool) && bool_decide ((nx, ny) ∉ visited) then Ret ((nx, ny) :: stack)
  else Ret stack.

Definition dfsExplore_body (endX endY : Z) (maze : Maze) (W H : Z)
    (st : list coord * gset coord * list coord)
    : outcome (step_result (list coord * gset coord * list coord) (list coord)) :=
  let '(stack, visited, explored) := st in
  match stack with
  | [] => Ret (Done (tail explored))
  | (x, y) :: stack =>
      if decide ((x, y) ∈ visited) then Ret (Continue (stack, visited, explored))
      else
        let visited := {[ (x, y) ]} ∪ visited in
        let explored := explored ++ [(x, y)] in
        if (x =? endX) && (y =? endY) then Ret (Done (tail explored))
        else
          stack ← for_each (dfsExplore_neighbor maze W H x y visited) (reverse directions) stack;
          Ret (Continue (stack, visited, explored))
  end.

Definition dfsExplore (startX startY endX endY : Z) (maze : Maze) : outcome (list coord) :=
  let stack := [(startX, startY)] in
  let visited : gset coord := ∅ in
  let explored : list coord := [] in
  WIDTH ← maze_width maze;
  let HEIGHT := maze_height maze in
  while_loop (loop_bound maze) (dfsExplore_body endX endY maze WIDTH HEIGHT)
    (stack, visited, explored).

(** ** [bfsExplore] *)

Definition bfsExplore_neighbor (maze : Maze) (W H x y : Z)
    (st : list coord * gset coord) (d : Direction)
    : outcome (list coord * gset coord) :=
  let '(queue, visited) := st in
  let nx := x + dx d in
  let ny := y + dy d in
  ok ← canStep maze W H x y d;
  if (ok : bool) && bool_decide ((nx, ny) ∉ visited) then
    Ret (queue ++ [(nx, ny)], {[ (nx, ny) ]} ∪ visited)
  else Ret st.

Definition bfsExplore_body (endX endY : Z) (maze : Maze) (W H : Z)
    (st : list coord * gset coord * list coord)
    : outcome (step_result (list coord * gset coord * list coord) (list coord)) :=
  let '(queue, visited, explored) := st in
  match queue with
  | [] => Ret (Done (tail explored))
  | (x, y) :: queue =>
      let explored := explored ++ [(x, y)] in
      if (x =? endX) && (y =? endY) then Ret (Done (tail explored))
      else
        '(queue, visited) ← for_each (bfsExplore_neighbor maze W H x y) directions (queue, visited);
        Ret (Continue (queue, visited, explored))
  end.

Definition bfsExplore (startX startY endX endY : Z) (maze : Maze) : outcome (list coord) :=
  let queue := [(startX, startY)] in
  let visited : gset coord := {[ (startX, startY) ]} in
  let explored : list coord := [] in
  WIDTH ← maze_width maze;
  let HEIGHT := maze_height maze in
  while_loop (loop_bound maze) (bfsExplore_body endX endY maze WIDTH HEIGHT)
    (queue, visited, explored).

(** ** [heuristic] and the numbers of [astar] *)

(** [Math.abs(x - endX) + Math.abs(y - endY)] *)
Definition heuristic (x y endX endY : Z) : Z := Z.abs (x - endX) + Z.abs (y - endY).

(** The values of [gScore.get(k) ?? Infinity]: an integer or [Infinity]. *)
Inductive num : Type :=
  | Fin (z : Z)
  | Infinity.

(** [a + k] for an integer [k] *)
Definition num_add (a : num) (k : Z) : num :=
  match a with
  | Fin z => Fin (z + k)
  | Infinity => Infinity
  end.

(** [a < b] *)
Definition num_ltb (a b : num) : bool :=
  match a, b with
  | Fin x, Fin y => x <? y
  | Fin _, Infinity => true
  | Infinity, _ => false
  end.

(** The sign of [a - b] as [Array.prototype.sort] reads a comparator's result:
    [Infinity - Infinity] is [NaN], which [sort] takes for [0]. *)
Definition num_compare (a b : num) : comparison :=
  match a, b with
  | Fin x, Fin y => x ?= y
  | Fin _, Infinity => Lt
  | Infinity, Fin _ => Gt
  | Infinity, Infinity => Eq
  end.

(** [Array.prototype.sort] is stable: an insertion sort that puts an element
    before the elements to its right that do not compare smaller. *)
Fixpoint insert_by {A : Type} (cmp : A → A → comparison) (a : A) (l : list A) : list A :=
  match l with
  | [] => [a]
  | b :: l' =>
      match cmp a b with
      | Gt => b :: insert_by cmp a l'
      | _ => a :: l
      end
  end.

Definition sort_by {A : Type} (cmp : A → A → comparison) (l : list A) : list A :=
  foldr (insert_by cmp) [] l.

(** ** [astar] *)

(** [gScore.get(k) ?? Infinity] *)
Definition gget (gScore : gmap coord num) (k : coord) : num :=
  default Infinity (gScore !! k).

Definition fScore (gScore : gmap coord num) (endX endY : Z) (node : SearchNode) : num :=
  num_add (gget gScore (sn_x node, sn_y node)) (heuristic (sn_x node) (sn_y node) endX endY).

(** [node => node.x === nx && node.y === ny] *)
Definition at_xy (nx ny : Z) (node : SearchNode) : bool :=
  (sn_x node =? nx) && (sn_y node =? ny).

(** [openSet[openSet.findIndex(at_xy)].path = p], nothing when the index is [-1] *)
Fixpoint set_path (nx ny : Z) (p : list coord) (openSet : list SearchNode) : list SearchNode :=
  match openSet with
  | [] => []
  | node :: rest =>
      if at_xy nx ny node then mkNode (sn_x node) (sn_y node) p :: rest
      else node :: set_path nx ny p rest
  end.

Definition astar_neighbor (maze : Maze) (W H x y : Z) (path : list coord)
    (closedSet : gset coord) (st : list SearchNode * gmap coord num) (d : Direction)
    : outcome (list SearchNode * gmap coord num) :=
  let '(openSet, gScore) := st in
  let nx := x + dx d in
  let ny := y + dy d in
  ok ← canStep maze W H x y d;
  if ok : bool then
    if decide ((nx, ny) ∈ closedSet) then Ret st
    else
      let tentativeGScore := num_add (gget gScore (x, y)) 1 in
      match find (at_xy nx ny) openSet with
      | None =>
          Ret (openSet ++ [mkNode nx ny (path ++ [(nx, ny)])],
               <[(nx, ny) := tentativeGScore]> gScore)
      | Some _ =>
          if num_ltb tentativeGScore (gget gScore (nx, ny)) then
            Ret (set_path nx ny (path ++ [(nx, ny)]) openSet,
                 <[(nx, ny) := tentativeGScore]> gScore)
          else Ret st
      end
  else Ret st.

Definition astar_body (endX endY : Z) (maze : Maze) (W H : Z)
    (st : list SearchNode * gset coord * gmap coord num)
    : outcome (step_result (list SearchNode * gset coord * gmap coord num) (list coord)) :=
  let '(openSet, closedSet, gScore) := st in
  match openSet with
  | [] => Ret (Done [])
  | _ :: _ =>
      match sort_by (λ a b, num_compare (fScore gScore endX endY a) (fScore gScore endX endY b))
              openSet with
      | [] => TypeError
      | current :: openSet =>
          let x := sn_x current in
          let y := sn_y current in
          let path := sn_path current in
          if (x =? endX) && (y =? endY) then Ret (Done (tail path))
          else
            let closedSet := {[ (x, y) ]} ∪ closedSet in
            '(openSet, gScore) ←
              for_each (astar_neighbor maze W H x y path closedSet) directions
                (openSet, gScore);
            Ret (Continue (openSet, closedSet, gScore))
      end
  end.

Definition astar (startX startY endX endY : Z) (maze : Maze) : outcome (list coord) :=
  MAZE_WIDTH ← maze_width maze;
  let MAZE_HEIGHT := maze_height maze in
  let openSet := [mkNode startX startY [(startX, startY)]] in
  let closedSet : gset coord := ∅ in
  let gScore : gmap coord num := {[ (startX, startY) := Fin 0 ]} in
  while_loop (loop_bound maze) (astar_body endX endY maze MAZE_WIDTH MAZE_HEIGHT)
    (openSet, closedSet, gScore).

(** ** [astarExplore] *)

(** The variables of [astarExplore] that its loop changes. *)
Record AStarExploreState : Type := mkAState {
  as_openSet : list AStarExploreSearchNode;
  as_inClosed : gset coord;
  as_explored : list coord;
  as_gScore : gmap coord Z;
  as_cameFrom : gmap coord coord
}.

(** The object [{ explored, path }] that [astarExplore] returns. *)
Record AStarExploreResult : Type := mkAResult {
  explored : list coord;
  path : list coord
}.

(** [f(n) = n.g + heuristic(n.x, n.y, endX, endY)] *)
Definition f_explore (endX endY : Z) (n : AStarExploreSearchNode) : Z :=
  an_g n + heuristic (an_x n) (an_y n) endX endY.

(** [node => node.x === nx && node.y === ny] *)
Definition an_at_xy (nx ny : Z) (node : AStarExploreSearchNode) : bool :=
  (an_x node =? nx) && (an_y node =? ny).

(** [existingNodeInOpenSet.g = tentativeG] on the node that [find] returned,
    the first one with these coordinates. *)
Fixpoint set_g (nx ny g : Z) (openSet : list AStarExploreSearchNode)
    : list AStarExploreSearchNode :=
  match openSet with
  | [] => []
  | node :: rest =>
      if an_at_xy nx ny node then mkANode (an_x node) (an_y node) g :: rest
      else node :: set_g nx ny g rest
  end.

(** [tentativeG < (gScore.get(nkey) ?? Infinity)] *)
Definition improves (tentativeG : Z) (gScore : gmap coord Z) (nkey : coord) : bool :=
  match gScore !! nkey with
  | Some g => tentativeG <? g
  | None => true
  end.

Definition astarExplore_neighbor (maze : Maze) (W H : Z) (current : AStarExploreSearchNode)
    (st : AStarExploreState) (d : Direction) : outcome AStarExploreState :=
  let nx := an_x current + dx d in
  let ny := an_y current + dy d in
  let key := (an_x current, an_y current) in
  let nkey := (nx, ny) in
  ok ← canStep maze W H (an_x current) (an_y current) d;
  if negb ok || bool_decide (nkey ∈ as_inClosed st) then Ret st
  else
    let tentativeG := an_g current + 1 in
    if improves tentativeG (as_gScore st) nkey then
      let cameFrom := <[nkey := key]> (as_cameFrom st) in
      let gScore := <[nkey := tentativeG]> (as_gScore st) in
      match find (an_at_xy nx ny) (as_openSet st) with
      | None =>
          Ret (mkAState (as_openSet st ++ [mkANode nx ny tentativeG]) (as_inClosed st)
                 (as_explored st) gScore cameFrom)
      | Some _ =>
          Ret (mkAState (set_g nx ny tentativeG (as_openSet st)) (as_inClosed st)
                 (as_explored st) gScore cameFrom)
      end
    else Ret st.

(** One iteration of the loop; [Done] is the state in which the loop is left,
    by [break] or because [openSet] is empty.  [shift()] on an empty array
    would give [undefined], whose fields cannot be read. *)
Definition astarExplore_body (startX startY endX endY : Z) (maze : Maze) (W H : Z)
    (st : AStarExploreState) : outcome (step_result AStarExploreState AStarExploreState) :=
  match as_openSet st with
  | [] => Ret (Done st)
  | _ :: _ =>
      match sort_by (λ a b, f_explore endX endY a ?= f_explore endX endY b)
              (as_openSet st) with
      | [] => TypeError
      | current :: openSet =>
          let key := (an_x current, an_y current) in
          if decide (key ∈ as_inClosed st) then
            Ret (Continue (mkAState openSet (as_inClosed st) (as_explored st)
                             (as_gScore st) (as_cameFrom st)))
          else
            let inClosed := {[ key ]} ∪ as_inClosed st in
            let explored :=
              if negb (an_x current =? startX) || negb (an_y current =? startY)
              then as_explored st ++ [key] else as_explored st in
            let st := mkAState openSet inClosed explored (as_gScore st) (as_cameFrom st) in
            if (an_x current =? endX) && (an_y current =? endY) then Ret (Done st)
            else
              st ← for_each (astarExplore_neighbor maze W H current) directions st;
              Ret (Continue st)
      end
  end.

(** [while (curKey && curKey !== startKey) { optimalPath.push(curKey);
    curKey = cameFrom.get(curKey) }]; [curKey] is [None] once it is
    [undefined]. *)
Fixpoint walk_back (fuel : nat) (cameFrom : gmap coord coord) (startKey : coord)
    (curKey : option coord) (optimalPath : list coord) : outcome (list coord) :=
  match curKey with
  | None => Ret optimalPath
  | Some k =>
      if decide (k = startKey) then Ret optimalPath
      else
        match fuel with
        | O => OutOfFuel
        | S fuel' => walk_back fuel' cameFrom startKey (cameFrom !! k) (optimalPath ++ [k])
        end
  end.

Definition astarExplore (startX startY endX endY : Z) (maze : Maze)
    : outcome AStarExploreResult :=
  W ← maze_width maze;
  let H := maze_height maze in
  let init := mkAState [mkANode startX startY 0] ∅ [] {[ (startX, startY) := 0 ]} ∅ in
  st ← while_loop (loop_bound maze) (astarExplore_body startX startY endX endY maze W H) init;
  optimalPath ←
    (if decide (is_Some (as_gScore st !! (endX, endY)))
     then walk_back (loop_bound maze) (as_cameFrom st) (startX, startY) (Some (endX, endY)) []
     else Ret []);
  Ret (mkAResult (as_explored st) (reverse optimalPath)).

(** ** [findPath] *)

(** [!maze || maze.length === 0 || !maze[0]]: an array [maze[0]] is truthy
    even when it is empty, so the test holds of the empty [maze] only. *)
Definition findPath (startX startY endX endY : Z) (method : SearchMethod) (maze : Maze)
    : outcome (list coord) :=
  match maze with
  | [] => Ret []
  | _ :: _ =>
      match method with
      | DFS => dfs startX startY endX endY maze
      | BFS => bfs startX startY endX endY maze
      | ASTAR => astar startX startY endX endY maze
      | DFS_EXPLORE => dfsExplore startX startY endX endY maze
      | BFS_EXPLORE => bfsExplore startX startY endX endY maze
      | ASTAR_EXPLORE =>
          aStarResult ← astarExplore startX startY endX endY maze;
          Ret (explored aStarResult)
      end
  end.

(** ** The maze as a graph *)

(** The width [maze[0].length] that the routines compute, [0] for no row. *)
Definition grid_width (maze : Maze) : Z := Z.of_nat (length (hd [] maze)).

(** A coordinate inside [[0, width) x [0, height)]. *)
Definition in_grid (maze : Maze) (c : coord) : Prop :=
  0 ≤ c.1 < grid_width maze ∧ 0 ≤ c.2 < maze_height maze.

(** Every row has the length of the first one. *)
Definition rectangular (maze : Maze) : Prop :=
  Forall (λ row, length row = length (hd [] maze)) maze.

(** [maze[y][x]] where both reads succeed. *)
Definition cellAt (maze : Maze) (c : coord) : option MazeCell :=
  row ← index maze c.2; index row c.1.

Definition move (c : coord) (d : Direction) : coord := (c.1 + dx d, c.2 + dy d).

(** A legal move from [u] in direction [d]: the target is inside the grid and
    the wall flag of [u], the cell being left, is false for [d]. *)
Definition step_via (maze : Maze) (u : coord) (d : Direction) (v : coord) : Prop :=
  v = move u d ∧ in_grid maze v ∧
  ∃ cell, cellAt maze u = Some cell ∧ wall d cell = false.

Definition step (maze : Maze) (u v : coord) : Prop :=
  ∃ d, d ∈ directions ∧ step_via maze u d v.

(** [chain maze u p]: starting from [u], each coordinate of [p] is one legal
    move after the one before it. *)
Fixpoint chain (maze : Maze) (u : coord) (p : list coord) : Prop :=
  match p with
  | [] => True
  | v :: p' => step maze u v ∧ chain maze v p'
  end.

(** [p] lists the coordinates after [s] of a wall-respecting path from [s] to
    [g]; its length is the number of moves. *)
Definition is_path (maze : Maze) (s g : coord) (p : list coord) : Prop :=
  chain maze s p ∧ last (s :: p) = Some g.

Definition reachable (maze : Maze) (s g : coord) : Prop :=
  ∃ p, is_path maze s g p.

(** A path with the minimum number of moves. *)
Definition shortest_path (maze : Maze) (s g : coord) (p : list coord) : Prop :=
  is_path maze s g p ∧ ∀ q, is_path maze s g q → (length p ≤ length q)%nat.

(** A coordinate that a search can expand and whose cell is missing. *)
Definition has_hole (maze : Maze) (s : coord) : Prop :=
  ∃ c, (c = s ∨ in_grid maze c) ∧ cellAt maze c = None.

(** The coordinates a search can ever put in its frontier: the start and the
    cells of the rectangle. *)
Definition all_cells (maze : Maze) : list coord :=
  x ← seqZ 0 (grid_width maze); (λ y, (x, y)) <$> seqZ 0 (maze_height maze).

(** How many of them are not yet in the set [V]. *)
Definition remaining (maze : Maze) (s : coord) (V : gset coord) : nat :=
  length (filter (λ c, c ∉ V) (s :: all_cells maze)).

(** ** Frontier nodes that carry their path *)

Definition sn_coord (n : SearchNode) : coord := (sn_x n, sn_y n).

(** The path of a node runs from the start to the node by legal moves. *)
Definition path_ok (maze : Maze) (s : coord) (n : SearchNode) : Prop :=
  ∃ rest, sn_path n = s :: rest ∧ is_path maze s (sn_coord n) rest.

(** The coordinates before the node on its path are distinct members of [V]. *)
Definition anc_ok (V : gset coord) (n : SearchNode) : Prop :=
  ∃ anc, sn_path n = anc ++ [sn_coord n] ∧ NoDup anc ∧ ∀ a, a ∈ anc → a ∈ V.

(** ** Invariant of the loop of [dfs] *)

Definition dfs_inv (maze : Maze) (s t : coord) (st : list SearchNode * gset coord) : Prop :=
  Forall (λ n, path_ok maze s n ∧ anc_ok st.2 n) st.1 ∧
  (∀ u v, u ∈ st.2 → step maze u v → v ∈ st.2 ∨ v ∈ sn_coord <$> st.1) ∧
  (t ∉ st.2) ∧
  (s ∈ st.2 ∨ s ∈ sn_coord <$> st.1).

Definition dfs_mu (maze : Maze) (s : coord) (st : list SearchNode * gset coord) : nat :=
  (5 * remaining maze s st.2 + length st.1)%nat.

(** What a path-mode search may end with: a simple path to the goal, or the
    empty sequence when there is none; a [TypeError] only for a missing cell. *)
Definition path_post (maze : Maze) (s t : coord) (r : outcome (list coord)) : Prop :=
  match r with
  | Ret p => (is_path maze s t p ∧ NoDup (s :: p)) ∨ (p = [] ∧ ¬ reachable maze s t)
  | TypeError => has_hole maze s
  | OutOfFuel => False
  end.

(** ** Invariant of the loop of [bfs] *)

(** The level of a frontier node: the length of its path, one more than the
    number of moves. *)
Definition lvl (n : SearchNode) : nat := length (sn_path n).

Definition lvl_le (a b : SearchNode) : Prop := (lvl a ≤ lvl b)%nat.

(** No path to the node has fewer moves than the path it carries. *)
Definition lvl_optimal (maze : Maze) (s : coord) (n : SearchNode) : Prop :=
  ∀ q, is_path maze s (sn_coord n) q → (lvl n ≤ S (length q))%nat.

Definition bfs_node_ok (maze : Maze) (s : coord) (V : gset coord) (n : SearchNode) : Prop :=
  path_ok maze s n ∧ NoDup (sn_path n) ∧ (∀ a, a ∈ sn_path n → a ∈ V) ∧ lvl_optimal maze s n.

Definition bfs_inv (maze : Maze) (s t : coord) (st : list SearchNode * gset coord) : Prop :=
  Forall (bfs_node_ok maze s st.2) st.1 ∧
  StronglySorted lvl_le st.1 ∧
  (∀ a b, a ∈ st.1 → b ∈ st.1 → (lvl b ≤ lvl a + 1)%nat) ∧
  (∀ u v, u ∈ st.2 → u ∉ sn_coord <$> st.1 → step maze u v → v ∈ st.2) ∧
  (∀ n v q, head st.1 = Some n → is_path maze s v q → (S (length q) ≤ lvl n)%nat → v ∈ st.2) ∧
  (t ∈ st.2 → t ∈ sn_coord <$> st.1) ∧
  s ∈ st.2.

Definition bfs_mu (maze : Maze) (s : coord) (st : list SearchNode * gset coord) : nat :=
  (2 * remaining maze s st.2 + length st.1)%nat.

(** What [bfs] and [astar] may end with: a simple path to the goal with the
    minimum number of moves, or the empty sequence when there is no path. *)
Definition shortest_post (maze : Maze) (s t : coord) (r : outcome (list coord)) : Prop :=
  match r with
  | Ret p => (shortest_path maze s t p ∧ NoDup (s :: p)) ∨ (p = [] ∧ ¬ reachable maze s t)
  | TypeError => has_hole maze s
  | OutOfFuel => False
  end.

(** ** Invariant of the loop of [astar] *)

(** A node of [openSet]: its path is a legal path through closed cells, it is
    not closed itself, and [gScore] holds the number of moves of its path. *)
Definition astar_node_ok (maze : Maze) (s : coord) (closedSet : gset coord)
    (gScore : gmap coord num) (n : SearchNode) : Prop :=
  path_ok maze s n ∧ anc_ok closedSet n ∧ (sn_coord n ∉ closedSet) ∧
  gScore !! sn_coord n = Some (Fin (Z.of_nat (lvl n) - 1)).

Definition astar_inv (maze : Maze) (s t : coord)
    (st : list SearchNode * gset coord * gmap coord num) : Prop :=
  let '(openSet, closedSet, gScore) := st in
  Forall (astar_node_ok maze s closedSet gScore) openSet ∧
  NoDup (sn_coord <$> openSet) ∧
  (∀ c, c ∈ closedSet →
     ∃ g, gScore !! c = Some (Fin g) ∧ ∀ q, is_path maze s c q → g ≤ Z.of_nat (length q)) ∧
  (∀ u v, u ∈ closedSet → step maze u v →
     v ∈ closedSet ∨
     (v ∈ sn_coord <$> openSet ∧
      ∃ gu gv, gScore !! u = Some (Fin gu) ∧ gScore !! v = Some (Fin gv) ∧ gv ≤ gu + 1)) ∧
  (t ∉ closedSet) ∧
  (s ∈ closedSet ∨ s ∈ sn_coord <$> openSet).

Definition astar_mu (maze : Maze) (s : coord)
    (st : list SearchNode * gset coord * gmap coord num) : nat :=
  remaining maze s st.1.2.

(** ** Exploration order *)

(** Every coordinate of [l] is one legal move away from the start or from a
    coordinate that comes before it in [l]. *)
Definition expansion_order (maze : Maze) (s : coord) (l : list coord) : Prop :=
  ∀ l1 c l2, l = l1 ++ c :: l2 → ∃ u, u ∈ s :: l1 ∧ step maze u c.

(** What an explore-mode search may end with: the coordinates expanded after
    the start, each once, up to the goal when it is reachable and the whole
    component of the start when it is not. *)
Definition explore_post (maze : Maze) (s t : coord) (r : outcome (list coord)) : Prop :=
  match r with
  | Ret l =>
      NoDup (s :: l) ∧ expansion_order maze s l ∧
      ((reachable maze s t ∧ last (s :: l) = Some t) ∨
       (¬ reachable maze s t ∧ ∀ c, reachable maze s c → c ∈ s :: l))
  | TypeError => has_hole maze s
  | OutOfFuel => False
  end.

(** ** Invariant of the loop of [dfsExplore] *)

Definition dfsExplore_inv (maze : Maze) (s t : coord)
    (st : list coord * gset coord * list coord) : Prop :=
  let '(stack, visited, explored) := st in
  ((explored = [] ∧ stack = [s] ∧ visited = ∅) ∨
   (∃ e, explored = s :: e ∧ expansion_order maze s e)) ∧
  NoDup explored ∧
  (∀ c, c ∈ explored ↔ c ∈ visited) ∧
  (∀ v, v ∈ stack → v = s ∨ ∃ u, u ∈ visited ∧ step maze u v) ∧
  (∀ u v, u ∈ visited → step maze u v → v ∈ visited ∨ v ∈ stack) ∧
  (t ∉ visited).

Definition dfsExplore_mu (maze : Maze) (s : coord)
    (st : list coord * gset coord * list coord) : nat :=
  (5 * remaining maze s st.1.2 + length st.1.1)%nat.

(** ** Invariant of the loop of [bfsExplore] *)

Definition bfsExplore_inv (maze : Maze) (s t : coord)
    (st : list coord * gset coord * list coord) : Prop :=
  let '(queue, visited, explored) := st in
  ((explored = [] ∧ queue = [s]) ∨
   (∃ e, explored = s :: e ∧ expansion_order maze s e)) ∧
  NoDup (explored ++ queue) ∧
  (∀ c, c ∈ visited ↔ c ∈ explored ++ queue) ∧
  (∀ v, v ∈ queue → v = s ∨ ∃ u, u ∈ explored ∧ step maze u v) ∧
  (∀ u v, u ∈ explored → step maze u v → v ∈ visited) ∧
  (t ∉ explored).

Definition bfsExplore_mu (maze : Maze) (s : coord)
    (st : list coord * gset coord * list coord) : nat :=
  (2 * remaining maze s st.1.2 + length st.1.1)%nat.

(** ** Invariant of the loop of [astarExplore] *)

Definition an_coord (n : AStarExploreSearchNode) : coord := (an_x n, an_y n).

(** The number of coordinates a search can expand: the cells and the start. *)
Definition cell_count (maze : Maze) : nat := S (length maze * length (hd [] maze)).

(** What [gScore] and [cameFrom] record of a coordinate [k] with cost [g]: the
    start has cost 0; any other coordinate came by a legal move from a closed
    coordinate of cost [g - 1]. *)
Definition came_ok (maze : Maze) (s : coord) (inClosed : gset coord)
    (gScore : gmap coord Z) (cameFrom : gmap coord coord) (k : coord) (g : Z) : Prop :=
  (k = s ∧ g = 0) ∨
  (k ≠ s ∧ 1 ≤ g ∧
   ∃ u, cameFrom !! k = Some u ∧ u ∈ inClosed ∧ step maze u k ∧ gScore !! u = Some (g - 1)).

Definition anode_ok (inClosed : gset coord) (gScore : gmap coord Z)
    (n : AStarExploreSearchNode) : Prop :=
  (an_coord n ∉ inClosed) ∧ gScore !! an_coord n = Some (an_g n).

Definition astarExplore_inv (maze : Maze) (s t : coord) (st : AStarExploreState) : Prop :=
  Forall (anode_ok (as_inClosed st) (as_gScore st)) (as_openSet st) ∧
  NoDup (an_coord <$> as_openSet st) ∧
  (∀ k g, as_gScore st !! k = Some g →
     came_ok maze s (as_inClosed st) (as_gScore st) (as_cameFrom st) k g ∧
     (k ∈ as_inClosed st ∨ k ∈ an_coord <$> as_openSet st) ∧
     (Z.to_nat g + remaining maze s (as_inClosed st) ≤ cell_count maze)%nat) ∧
  (∀ c, c ∈ as_inClosed st →
     ∃ g, as_gScore st !! c = Some g ∧ ∀ q, is_path maze s c q → g ≤ Z.of_nat (length q)) ∧
  (∀ u v, u ∈ as_inClosed st → step maze u v →
     v ∈ as_inClosed st ∨
     (v ∈ an_coord <$> as_openSet st ∧
      ∃ gu gv, as_gScore st !! u = Some gu ∧ as_gScore st !! v = Some gv ∧ gv ≤ gu + 1)) ∧
  (s ∈ as_inClosed st ∨ (an_coord <$> as_openSet st = [s] ∧ as_explored st = [])) ∧
  NoDup (s :: as_explored st) ∧
  expansion_order maze s (as_explored st) ∧
  (∀ c, c ∈ as_inClosed st → c ∈ s :: as_explored st) ∧
  (∀ c, c ∈ as_explored st → c ∈ as_inClosed st) ∧
  (t ∉ as_inClosed st).

(** The state in which the loop of [astarExplore] is left. *)
Definition astarExplore_final (maze : Maze) (s t : coord) (st : AStarExploreState) : Prop :=
  NoDup (s :: as_explored st) ∧
  expansion_order maze s (as_explored st) ∧
  (∀ k g, as_gScore st !! k = Some g →
     came_ok maze s (as_inClosed st) (as_gScore st) (as_cameFrom st) k g ∧
     (Z.to_nat g ≤ cell_count maze)%nat) ∧
  ((last (s :: as_explored st) = Some t ∧
    ∃ g, as_gScore st !! t = Some g ∧ ∀ q, is_path maze s t q → g ≤ Z.of_nat (length q)) ∨
   (¬ reachable maze s t ∧ as_gScore st !! t = None ∧
    ∀ c, reachable maze s c → c ∈ s :: as_explored st)).

Definition astarExplore_loop_post (maze : Maze) (s t : coord)
    (r : outcome AStarExploreState) : Prop :=
  match r with
  | Ret st => astarExplore_final maze s t st
  | TypeError => has_hole maze s
  | OutOfFuel => False
  end.

(** What [astarExplore] may end with: an exploration order and a path with
    the minimum number of moves, empty when there is no path. *)
Definition astarExplore_post (maze : Maze) (s t : coord)
    (r : outcome AStarExploreResult) : Prop :=
  match r with
  | Ret res =>
      explore_post maze s t (Ret (explored res)) ∧
      (shortest_path maze s t (path res) ∨ (path res = [] ∧ ¬ reachable maze s t))
  | TypeError => has_hole maze s
  | OutOfFuel => False
  end.

(** ** A start whose neighbours cannot be tested *)

(** From a start outside a rectangular grid, and in a grid whose first row is
    empty, the test of a neighbour never reaches a wall flag: it fails on the
    bounds, or it throws on the missing cell. *)
Definition blocked (maze : Maze) (W H x y : Z) : Prop :=
  ∀ d, canStep maze W H x y d =
       if inBounds W H (x + dx d) (y + dy d) then TypeError else Ret false.

(** None of the four neighbours of [(x, y)] is inside the bounds. *)
Definition no_entry (W H x y : Z) : bool :=
  forallb (λ d, negb (inBounds W H (x + dx d) (y + dy d))) directions.

(** The result of every routine for such a start: nothing when the start is
    the goal or has no neighbour inside the bounds, a [TypeError] otherwise. *)
Definition blocked_result {A} (W H sx sy ex ey : Z) (a : A) : outcome A :=
  if (sx =? ex) && (sy =? ey) then Ret a
  else if no_entry W H sx sy then Ret a else TypeError.

(** ** Deciding paths *)

Definition in_gridb (maze : Maze) (c : coord) : bool :=
  inBounds (grid_width maze) (maze_height maze) c.1 c.2.

Definition stepb (maze : Maze) (u v : coord) : bool :=
  existsb (λ d, bool_decide (v = move u d) && in_gridb maze v &&
                match cellAt maze u with
                | Some cell => negb (wall d cell)
                | None => false
                end) directions.

Fixpoint chainb (maze : Maze) (u : coord) (p : list coord) : bool :=
  match p with
  | [] => true
  | v :: p' => stepb maze u v && chainb maze v p'
  end.

Definition is_pathb (maze : Maze) (s g : coord) (p : list coord) : bool :=
  chainb maze s p && bool_decide (last (s :: p) = Some g).

#[global] Instance in_grid_dec maze c : Decision (in_grid maze c).
Proof. unfold in_grid. apply _. Defined.

(** The strategies that return a path rather than an exploration order. *)
Definition path_mode (m : SearchMethod) : bool :=
  match m with
  | DFS | BFS | ASTAR => true
  | DFS_EXPLORE | BFS_EXPLORE | ASTAR_EXPLORE => false
  end.

(** ** Example mazes *)

Definition open_cell : MazeCell := mkCell false false false false.

(** Two rows of two cells, with a wall between (0,0) and (1,0). *)
Definition maze_u : Maze :=
  [ [mkCell false true false false; mkCell false false false true];
    [open_cell; open_cell] ].

(** One row of three cells, with a wall between (1,0) and (2,0). *)
Definition maze_split : Maze :=
  [ [open_cell; mkCell false true false false; mkCell false false false true] ].

(** A row of five open cells. *)
Definition corridor : Maze := [repeat open_cell 5].

(** Three rows of three open cells. *)
Definition open_3x3 : Maze := repeat (repeat open_cell 3) 3.

(** * Properties *)

(** ** Loops *)

Section loops.
Context {S R : Type} (body : S → outcome (step_result S R)).
Context (Inv : S → Prop) (mu : S → nat) (Post : outcome R → Prop).

Hypothesis body_ok : ∀ s, Inv s →
  match body s with
  | Ret (Continue s') => Inv s' ∧ (mu s' < mu s)%nat
  | Ret (Done r) => Post (Ret r)
  | TypeError => Post TypeError
  | OutOfFuel => False
  end.

Lemma while_loop_inv fuel s :
  Inv s → (mu s < fuel)%nat → Post (while_loop fuel body s).
Proof.
  revert s. induction fuel as [|fuel IH]; intros s Hs Hmu; [lia|].
  simpl. specialize (body_ok s Hs).
  destruct (body s) as [[s'|r]| |]; try done.
  destruct body_ok as [Hs' Hlt]. apply IH; [done|lia].
Qed.
End loops.

Section for_each.
Context {A S : Type} (f : S → A → outcome S).
Context (P : list A → S → Prop) (E : Prop).

Lemma for_each_inv_gen l pre s :
  P pre s →
  (∀ pre' a s, P pre' s → a ∈ l →
     match f s a with
     | Ret s' => P (pre' ++ [a]) s'
     | TypeError => E
     | OutOfFuel => False
     end) →
  match for_each f l s with
  | Ret s' => P (pre ++ l) s'
  | TypeError => E
  | OutOfFuel => False
  end.
Proof.
  revert pre s. induction l as [|a l IH]; intros pre s HP Hf; simpl.
  - by rewrite app_nil_r.
  - pose proof (Hf pre a s HP (list_elem_of_here _ _)) as Ha.
    destruct (f s a) as [s'| |]; simpl; try done.
    replace (pre ++ a :: l) with ((pre ++ [a]) ++ l) by by rewrite <- app_assoc.
    apply IH; [done|]. intros pre' b s0 HP' Hb. apply Hf; [done|].
    by apply list_elem_of_further.
Qed.

Lemma for_each_inv l s :
  P [] s →
  (∀ pre a s, P pre s → a ∈ l →
     match f s a with
     | Ret s' => P (pre ++ [a]) s'
     | TypeError => E
     | OutOfFuel => False
     end) →
  match for_each f l s with
  | Ret s' => P l s'
  | TypeError => E
  | OutOfFuel => False
  end.
Proof. intros HP Hf. exact (for_each_inv_gen l [] s HP Hf). Qed.
End for_each.

(** ** Facts about the grid *)

Lemma maze_width_cons row maze :
  maze_width (row :: maze) = Ret (grid_width (row :: maze)).
Proof. done. Qed.

Lemma inBounds_in_grid maze c :
  inBounds (grid_width maze) (maze_height maze) c.1 c.2 = true ↔ in_grid maze c.
Proof. unfold inBounds, in_grid. rewrite !andb_true_iff. lia. Qed.

Lemma index_Some {A} (l : list A) i :
  0 ≤ i < Z.of_nat (length l) → is_Some (index l i).
Proof.
  intros Hi. unfold index. rewrite decide_True by lia.
  apply lookup_lt_is_Some_2. lia.
Qed.

Lemma index_elem_of {A} (l : list A) i a : index l i = Some a → a ∈ l.
Proof.
  unfold index. case_decide; [|done]. intros H'. by eapply list_elem_of_lookup_2.
Qed.

Lemma rectangular_cellAt maze c :
  rectangular maze → in_grid maze c → is_Some (cellAt maze c).
Proof.
  intros Hrect [Hx Hy]. unfold cellAt.
  destruct (index_Some maze c.2 Hy) as [row Hrow]. rewrite Hrow. simpl.
  apply index_Some. unfold rectangular in Hrect. rewrite Forall_forall in Hrect.
  rewrite (Hrect row (index_elem_of _ _ _ Hrow)). exact Hx.
Qed.

Lemma rectangular_no_hole maze s :
  rectangular maze → in_grid maze s → ¬ has_hole maze s.
Proof.
  intros Hrect Hs (c & Hc & Hnone).
  assert (in_grid maze c) as Hin by (destruct Hc; by subst).
  destruct (rectangular_cellAt maze c Hrect Hin) as [cell Hcell]. congruence.
Qed.

Lemma wallAt_cellAt w maze x y :
  wallAt w maze x y =
  match cellAt maze (x, y) with Some cell => Ret (w cell) | None => TypeError end.
Proof.
  unfold wallAt, cellAt. simpl. destruct (index maze y) as [row|]; simpl; [|done].
  by destruct (index row x).
Qed.

(** What the test of a neighbour evaluates to. *)
Lemma canStep_spec maze x y d :
  match canStep maze (grid_width maze) (maze_height maze) x y d with
  | Ret true => step_via maze (x, y) d (x + dx d, y + dy d)
  | Ret false => ∀ v, ¬ step_via maze (x, y) d v
  | TypeError => in_grid maze (x + dx d, y + dy d) ∧ cellAt maze (x, y) = None
  | OutOfFuel => False
  end.
Proof.
  unfold canStep.
  destruct (inBounds _ _ _ _) eqn:Hb.
  - apply (inBounds_in_grid maze (x + dx d, y + dy d)) in Hb.
    rewrite wallAt_cellAt. destruct (cellAt maze (x, y)) as [cell|] eqn:Hc; simpl; [|done].
    destruct (wall d cell) eqn:Hw; simpl.
    + intros v (_ & _ & cell' & Hc' & Hw'). congruence.
    + split; [done|]. split; [done|]. by exists cell.
  - intros v (-> & Hin & _). apply inBounds_in_grid in Hin. simpl in Hin. congruence.
Qed.

Lemma step_in_grid maze u v : step maze u v → in_grid maze v.
Proof. by intros (d & _ & _ & Hin & _). Qed.

(** ** Facts about paths *)

Lemma is_path_nil maze s : is_path maze s s [].
Proof. done. Qed.

Lemma is_path_nil_inv maze s g : is_path maze s g [] → s = g.
Proof. intros [_ Hl]. simpl in Hl. congruence. Qed.

Lemma is_path_cons maze s v g p :
  is_path maze s g (v :: p) ↔ step maze s v ∧ is_path maze v g p.
Proof. unfold is_path. simpl. tauto. Qed.

Lemma is_path_app maze s g p q :
  is_path maze s g (p ++ q) ↔ ∃ c, is_path maze s c p ∧ is_path maze c g q.
Proof.
  revert s. induction p as [|v p IH]; intros s; simpl.
  - split; [intros H; exists s; split; [apply is_path_nil|done]|].
    intros (c & Hc & Hq). by apply is_path_nil_inv in Hc as ->.
  - rewrite is_path_cons, IH. split.
    + intros (Hs & c & Hp & Hq). exists c. by rewrite is_path_cons.
    + intros (c & Hp & Hq). apply is_path_cons in Hp as [Hs Hp]. eauto.
Qed.

Lemma is_path_snoc maze s c v p :
  is_path maze s c p → step maze c v → is_path maze s v (p ++ [v]).
Proof.
  intros Hp Hs. apply is_path_app. exists c. split; [done|].
  apply is_path_cons. split; [done|apply is_path_nil].
Qed.

Lemma is_path_last maze s g p : is_path maze s g p → last (s :: p) = Some g.
Proof. by intros [_ ?]. Qed.

Lemma is_path_in_grid maze s g p : is_path maze s g p → s = g ∨ in_grid maze g.
Proof.
  revert s. induction p as [|v p IH]; intros s Hp.
  - left. by apply is_path_nil_inv in Hp.
  - apply is_path_cons in Hp as [Hs Hp]. right.
    destruct (IH v Hp) as [<-|Hin]; [by eapply step_in_grid|done].
Qed.

Lemma is_path_Forall_in_grid maze s g p :
  is_path maze s g p → Forall (in_grid maze) p.
Proof.
  revert s. induction p as [|v p IH]; intros s Hp; [done|].
  apply is_path_cons in Hp as [Hs Hp]. constructor; [by eapply step_in_grid|eauto].
Qed.

(** A set that holds the start and is closed under legal moves holds every
    reachable coordinate. *)
Lemma closed_reachable (maze : Maze) (V : gset coord) (s g : coord) :
  s ∈ V → (∀ u v, u ∈ V → step maze u v → v ∈ V) → reachable maze s g → g ∈ V.
Proof.
  intros Hs Hcl [p Hp]. revert s Hs Hp. induction p as [|v p IH]; intros s Hs Hp.
  - by apply is_path_nil_inv in Hp as <-.
  - apply is_path_cons in Hp as [Hst Hp]. eapply IH; [|done]. eauto.
Qed.

(** The first move of a path that leaves a set. *)
Lemma path_exit (maze : Maze) (V : gset coord) (s g : coord) (p : list coord) :
  s ∈ V → g ∉ V → is_path maze s g p →
  ∃ p1 c v p2, p = p1 ++ v :: p2 ∧ is_path maze s c p1 ∧ c ∈ V ∧ (v ∉ V) ∧
               step maze c v ∧ is_path maze v g p2.
Proof.
  revert s. induction p as [|w p IH]; intros s Hs Hg Hp.
  - apply is_path_nil_inv in Hp as <-. done.
  - apply is_path_cons in Hp as [Hst Hp].
    destruct (decide (w ∈ V)) as [Hw|Hw].
    + destruct (IH w Hw Hg Hp) as (p1 & c & v & p2 & -> & Hp1 & Hc & Hv & Hcv & Hp2).
      exists (w :: p1), c, v, p2. split_and!; try done. apply is_path_cons. by split.
    + exists [], s, w, p. split_and!; done.
Qed.

(** ** Counting the coordinates left to expand *)

Lemma filter_length_mono {A} (P Q : A → Prop) `{∀ x, Decision (P x)} `{∀ x, Decision (Q x)}
    (l : list A) :
  (∀ x, P x → Q x) → (length (filter P l) ≤ length (filter Q l))%nat.
Proof.
  intros HPQ. induction l as [|a l IH]; [done|].
  rewrite !filter_cons. destruct (decide (P a)) as [Ha|Ha].
  - rewrite decide_True by auto. simpl. lia.
  - destruct (decide (Q a)); simpl; lia.
Qed.

Lemma filter_length_lt {A} (P Q : A → Prop) `{∀ x, Decision (P x)} `{∀ x, Decision (Q x)}
    (l : list A) a :
  (∀ x, P x → Q x) → a ∈ l → Q a → ¬ P a →
  (length (filter P l) < length (filter Q l))%nat.
Proof.
  intros HPQ Hin HQ HnP. induction l as [|b l IH]; [by apply elem_of_nil in Hin|].
  rewrite !filter_cons. apply elem_of_cons in Hin as [<-|Hin].
  - rewrite decide_False, decide_True by done. simpl.
    pose proof (filter_length_mono P Q l HPQ). lia.
  - specialize (IH Hin). destruct (decide (P b)) as [Hb|Hb].
    + rewrite decide_True by auto. simpl. lia.
    + destruct (decide (Q b)); simpl; lia.
Qed.

Lemma remaining_mono (maze : Maze) (s : coord) (V V' : gset coord) :
  V ⊆ V' → (remaining maze s V' ≤ remaining maze s V)%nat.
Proof. intros HV. apply filter_length_mono. set_solver. Qed.

Lemma remaining_insert (maze : Maze) (s : coord) (V : gset coord) (c : coord) :
  c = s ∨ in_grid maze c → c ∉ V →
  (remaining maze s ({[ c ]} ∪ V) < remaining maze s V)%nat.
Proof.
  intros Hcs HcV. unfold remaining. apply filter_length_lt with (a := c).
  - intros x Hx Hin. apply Hx, elem_of_union. by right.
  - destruct Hcs as [->|[Hx Hy]]; [left|right]. unfold all_cells.
    apply list_elem_of_bind. exists c.1. split; [|apply elem_of_seqZ; lia].
    apply list_elem_of_fmap. exists c.2. split; [by destruct c|apply elem_of_seqZ; lia].
  - done.
  - intros Hn. apply Hn, elem_of_union. left. by apply elem_of_singleton.
Qed.

Lemma remaining_bound (maze : Maze) (s : coord) (V : gset coord) :
  (5 * remaining maze s V + 1 < loop_bound maze)%nat.
Proof.
  unfold remaining, loop_bound.
  pose proof (length_filter (λ c, c ∉ V) (s :: all_cells maze)) as Hle.
  assert (length (all_cells maze) = (length maze * length (hd [] maze))%nat) as Hlen.
  { unfold all_cells, grid_width, maze_height.
    generalize (length maze) as h. generalize (length (hd [] maze)) as w. intros w h.
    assert (∀ l : list Z, length (l ≫= λ x : Z, (λ y : Z, (x, y)) <$> seqZ 0 (Z.of_nat h)) =
                          (h * length l)%nat) as Hb.
    { induction l as [|a l IH]; [simpl; lia|].
      rewrite bind_cons, length_app, length_fmap, length_seqZ, IH. simpl. lia. }
    rewrite Hb, length_seqZ. lia. }
  simpl in Hle. lia.
Qed.

(** ** Frontier nodes that carry their path *)

#[global] Arguments for_each : simpl never.
#[global] Arguments directions : simpl never.

Lemma path_ok_in_grid maze s n : path_ok maze s n → sn_coord n = s ∨ in_grid maze (sn_coord n).
Proof.
  intros (rest & _ & Hp). destruct (is_path_in_grid _ _ _ _ Hp); [by left|by right].
Qed.

Lemma anc_ok_NoDup (V : gset coord) (n : SearchNode) : anc_ok V n → sn_coord n ∉ V → NoDup (sn_path n).
Proof.
  intros (anc & -> & Hnd & Hsub) Hn. apply NoDup_app. split_and!; [done| |apply NoDup_singleton].
  intros a Ha Hin. apply list_elem_of_singleton in Hin as ->. auto.
Qed.

Lemma anc_ok_mono (V V' : gset coord) (n : SearchNode) : V ⊆ V' → anc_ok V n → anc_ok V' n.
Proof. intros HV (anc & ? & ? & Hsub). exists anc. split_and!; [done..|]. set_solver. Qed.

(** The node pushed for a neighbour [v] of the expanded node [n]. *)
Lemma child_ok (maze : Maze) (s : coord) (V : gset coord) (n : SearchNode) (d : Direction)
    (v : coord) :
  path_ok maze s n → anc_ok V n → sn_coord n ∉ V → v ∉ V → v ≠ sn_coord n →
  step_via maze (sn_coord n) d v → d ∈ directions →
  let child := mkNode v.1 v.2 (sn_path n ++ [v]) in
  path_ok maze s child ∧ anc_ok ({[ sn_coord n ]} ∪ V) child ∧ NoDup (sn_path child).
Proof.
  intros (rest & Hpath & Hp) Hanc Hn Hv Hne Hstep Hd child.
  assert (sn_coord child = v) as Hcv by by destruct v.
  assert (NoDup (sn_path n)) as Hnd by by eapply anc_ok_NoDup.
  assert (∀ a, a ∈ sn_path n → a ∈ {[ sn_coord n ]} ∪ V) as Hsub.
  { destruct Hanc as (anc & Heq & _ & Hsub). rewrite Heq. intros a Ha.
    apply elem_of_app in Ha as [Ha|Ha]; [set_solver|].
    apply list_elem_of_singleton in Ha. set_solver. }
  split_and!.
  - exists (rest ++ [v]). rewrite Hcv. split; [simpl; by rewrite Hpath|].
    eapply is_path_snoc; [done|]. by exists d.
  - exists (sn_path n). rewrite Hcv. done.
  - simpl. apply NoDup_app. split_and!; [done| |apply NoDup_singleton].
    intros a Ha Hin. apply list_elem_of_singleton in Hin as ->.
    apply Hsub in Ha. set_solver.
Qed.

(** ** The loop of [dfs] *)

Lemma eqb_goal x y ex ey : (x =? ex) && (y =? ey) = true ↔ (x, y) = (ex, ey).
Proof. rewrite andb_true_iff, !Z.eqb_eq. split; [by intros [-> ->]|by intros [= -> ->]]. Qed.

Lemma eqb_goal_false x y ex ey : (x =? ex) && (y =? ey) = false ↔ (x, y) ≠ (ex, ey).
Proof. rewrite <- eqb_goal. by destruct (_ && _). Qed.

Lemma step_neq maze u v : step maze u v → u ≠ v.
Proof.
  intros (d & Hd & -> & _) Heq. unfold move in Heq. destruct u as [x y]. simpl in Heq.
  unfold directions in Hd. repeat (apply elem_of_cons in Hd as [->|Hd]); simpl in Heq;
    [injection Heq; lia..|by apply elem_of_nil in Hd].
Qed.

Lemma dfs_body_ok (maze : Maze) (s : coord) (ex ey : Z) (st : list SearchNode * gset coord) :
  let t := (ex, ey) in
  dfs_inv maze s t st →
  match dfs_body ex ey maze (grid_width maze) (maze_height maze) st with
  | Ret (Continue st') => dfs_inv maze s t st' ∧ (dfs_mu maze s st' < dfs_mu maze s st)%nat
  | Ret (Done r) => path_post maze s t (Ret r)
  | TypeError => path_post maze s t TypeError
  | OutOfFuel => False
  end.
Proof.
  destruct st as [stack visited]. intros t (Hnodes & Hcl & Ht & Hs). simpl in *.
  destruct stack as [|node stack]; simpl.
  - right. split; [done|]. intros Hreach. apply Ht.
    eapply closed_reachable; [| |done].
    + destruct Hs as [Hs|Hs]; [done|by apply elem_of_nil in Hs].
    + intros u v Hu Hst. destruct (Hcl u v Hu Hst) as [Hv|Hv]; [done|by apply elem_of_nil in Hv].
  - apply Forall_cons in Hnodes as [[Hpath Hanc] Hnodes].
    fold (sn_coord node). set (c := sn_coord node) in *.
    destruct (decide (c ∈ visited)) as [Hc|Hc]; simpl.
    + split; [|unfold dfs_mu; simpl; lia]. split_and!; simpl; [done| |done|].
      * intros u v Hu Hst. destruct (Hcl u v Hu Hst) as [Hv|Hv]; [by left|].
        rewrite fmap_cons in Hv. apply elem_of_cons in Hv as [->|Hv]; auto.
      * destruct Hs as [Hs|Hs]; [by left|].
        rewrite fmap_cons in Hs. apply elem_of_cons in Hs as [->|Hs]; auto.
    + destruct ((sn_x node =? ex) && (sn_y node =? ey)) eqn:Hgoal; simpl.
      * apply eqb_goal in Hgoal. left.
        pose proof (anc_ok_NoDup _ _ Hanc Hc) as Hnd.
        destruct Hpath as (rest & Hrest & Hp). rewrite Hrest in *. simpl.
        split; [|done]. assert (c = t) as <- by exact Hgoal. done.
      * apply eqb_goal_false in Hgoal.
        set (visited' := {[ c ]} ∪ visited).
        set (P := λ (pre : list Direction) (stk : list SearchNode),
             Forall (λ n, path_ok maze s n ∧ anc_ok visited' n) stk ∧
             (∀ v, v ∈ sn_coord <$> stack → v ∈ sn_coord <$> stk) ∧
             (∀ d v, d ∈ pre → step_via maze c d v → v ∈ visited' ∨ v ∈ sn_coord <$> stk) ∧
             (length stk ≤ length stack + length pre)%nat).
        assert (P [] stack) as HP0.
        { split_and!; [|done| |simpl; lia].
          - eapply Forall_impl; [exact Hnodes|]. intros n [? ?]. split; [done|].
            eapply anc_ok_mono; [|done]. set_solver.
          - intros d v Hd. by apply elem_of_nil in Hd. }
        assert (∀ pre d stk, P pre stk → d ∈ reverse directions →
          match dfs_neighbor maze (grid_width maze) (maze_height maze) (sn_x node) (sn_y node)
                  (sn_path node) visited' stk d with
          | Ret stk' => P (pre ++ [d]) stk'
          | TypeError => has_hole maze s
          | OutOfFuel => False
          end) as Hstep.
        { intros pre d stk (Hstk & Hmono & Hnew & Hlen) Hd. apply elem_of_reverse in Hd.
          unfold dfs_neighbor. pose proof (canStep_spec maze (sn_x node) (sn_y node) d) as Hcs.
          destruct (canStep _ _ _ _ _ _) as [[|]| |]; simpl; [| | |done].
          - set (v := (sn_x node + dx d, sn_y node + dy d)) in *.
            destruct (decide (v ∈ visited')) as [Hv|Hv].
            + split_and!; [done..| |rewrite length_app; simpl; lia].
              intros d' v' Hd' Hst'. apply elem_of_app in Hd' as [Hd'|Hd']; [eauto|].
              apply list_elem_of_singleton in Hd' as ->. left.
              destruct Hst' as [-> _]. exact Hv.
            + destruct (child_ok maze s visited node d v) as (Hc1 & Hc2 & _);
                [done|done|done|set_solver|set_solver|done|done|].
              split_and!.
              * apply Forall_cons. done.
              * intros v' Hv'. rewrite fmap_cons. apply elem_of_cons. right. auto.
              * intros d' v' Hd' Hst'. rewrite fmap_cons.
                apply elem_of_app in Hd' as [Hd'|Hd'].
                -- destruct (Hnew d' v' Hd' Hst'); [by left|right; by apply elem_of_cons; right].
                -- apply list_elem_of_singleton in Hd' as ->. right.
                   destruct Hst' as [-> _]. apply elem_of_cons. by left.
              * rewrite length_app. simpl. lia.
          - split_and!; [done..| |rewrite length_app; simpl; lia].
            intros d' v' Hd' Hst'. apply elem_of_app in Hd' as [Hd'|Hd']; [eauto|].
            apply list_elem_of_singleton in Hd' as ->. by apply Hcs in Hst'.
          - exists c. split; [|apply Hcs]. destruct (path_ok_in_grid _ _ _ Hpath); auto. }
        pose proof (for_each_inv _ P (has_hole maze s) _ _ HP0 Hstep) as Hfold.
        destruct (for_each _ _ _) as [stk| |]; simpl; [|done..].
        destruct Hfold as (Hstk & Hmono & Hnew & Hlen). split.
        -- split_and!; simpl; [done| | |].
           ++ intros u v Hu Hst. apply elem_of_union in Hu as [Hu|Hu].
              ** apply elem_of_singleton in Hu as ->. destruct Hst as (d & Hd & Hst).
                 eapply Hnew; [|done]. by apply elem_of_reverse.
              ** destruct (Hcl u v Hu Hst) as [Hv|Hv]; [left; set_solver|].
                 rewrite fmap_cons in Hv. apply elem_of_cons in Hv as [->|Hv];
                   [left; set_solver|auto].
           ++ intros Hin. apply elem_of_union in Hin as [Hin|Hin]; [|done].
              apply elem_of_singleton in Hin. apply Hgoal. symmetry. exact Hin.
           ++ destruct Hs as [Hs|Hs]; [left; set_solver|].
              rewrite fmap_cons in Hs. apply elem_of_cons in Hs as [->|Hs];
                [left; set_solver|auto].
        -- unfold dfs_mu. simpl.
           assert (remaining maze s visited' < remaining maze s visited)%nat.
           { apply remaining_insert; [|done]. by apply path_ok_in_grid. }
           rewrite length_reverse in Hlen. unfold directions in Hlen. simpl in Hlen. lia.
Qed.

Lemma dfs_spec (maze : Maze) (sx sy ex ey : Z) :
  maze ≠ [] → path_post maze (sx, sy) (ex, ey) (dfs sx sy ex ey maze).
Proof.
  intros Hne. destruct maze as [|row maze]; [done|]. unfold dfs.
  rewrite maze_width_cons. simpl.
  apply (while_loop_inv _ (dfs_inv (row :: maze) (sx, sy) (ex, ey))
           (dfs_mu (row :: maze) (sx, sy))).
  - intros st Hst. exact (dfs_body_ok (row :: maze) (sx, sy) ex ey st Hst).
  - split_and!; simpl.
    + apply Forall_singleton. split.
      * exists []. split; [done|apply is_path_nil].
      * exists []. split_and!; [done|apply NoDup_nil_2|]. intros a Ha. by apply elem_of_nil in Ha.
    + intros u v Hu. by apply not_elem_of_empty in Hu.
    + apply not_elem_of_empty.
    + right. apply list_elem_of_singleton. done.
  - unfold dfs_mu. simpl. pose proof (remaining_bound (row :: maze) (sx, sy) ∅). lia.
Qed.

(** ** The loop of [bfs] *)

Lemma path_ok_last maze s n : path_ok maze s n → last (sn_path n) = Some (sn_coord n).
Proof. intros (rest & -> & Hp). by apply is_path_last in Hp. Qed.

Lemma path_ok_elem maze s n : path_ok maze s n → sn_coord n ∈ sn_path n.
Proof.
  intros Hp. apply path_ok_last in Hp. apply last_Some in Hp as [l' ->].
  apply elem_of_app. right. by apply list_elem_of_singleton.
Qed.

Lemma is_path_snoc_inv maze s v p :
  is_path maze s v p → p ≠ [] →
  ∃ p' u, p = p' ++ [v] ∧ is_path maze s u p' ∧ step maze u v.
Proof.
  intros Hp Hne. destruct (exists_last Hne) as (p' & w & ->).
  apply is_path_app in Hp as (u & Hp' & Hw).
  apply is_path_cons in Hw as [Hst Hnil]. apply is_path_nil_inv in Hnil as ->.
  by exists p', u.
Qed.

Lemma bfs_child_ok (maze : Maze) (s : coord) (visited V : gset coord) (n : SearchNode)
    (d : Direction) (v : coord) :
  bfs_node_ok maze s visited n → visited ⊆ V → v ∉ V →
  (∀ u q, is_path maze s u q → (S (length q) ≤ lvl n)%nat → u ∈ visited) →
  step_via maze (sn_coord n) d v → d ∈ directions →
  let child := mkNode v.1 v.2 (sn_path n ++ [v]) in
  bfs_node_ok maze s ({[ v ]} ∪ V) child ∧ lvl child = S (lvl n) ∧ sn_coord child = v.
Proof.
  intros (Hpath & Hnd & Hsub & Hopt) HV Hv Hnear Hstep Hd child.
  assert (sn_coord child = v) as Hcv by by destruct v.
  assert (lvl child = S (lvl n)) as Hlvl.
  { unfold lvl, child. simpl. rewrite length_app. simpl. lia. }
  split; [|done]. split_and!.
  - destruct Hpath as (rest & Hrest & Hp). exists (rest ++ [v]). rewrite Hcv.
    split; [simpl; by rewrite Hrest|]. eapply is_path_snoc; [done|]. by exists d.
  - simpl. apply NoDup_app. split_and!; [done| |apply NoDup_singleton].
    intros a Ha Hin. apply list_elem_of_singleton in Hin as ->. apply Hv, HV, Hsub, Ha.
  - simpl. intros a Ha. apply elem_of_app in Ha as [Ha|Ha].
    + apply elem_of_union. right. apply HV, Hsub, Ha.
    + apply list_elem_of_singleton in Ha as ->. apply elem_of_union. left.
      by apply elem_of_singleton.
  - intros q Hq. rewrite Hcv in Hq. rewrite Hlvl.
    destruct (decide (S (length q) ≤ lvl n)%nat) as [Hle|Hgt]; [|lia].
    exfalso. apply Hv, HV. by eapply Hnear.
Qed.

Lemma bfs_body_ok (maze : Maze) (s : coord) (ex ey : Z) (st : list SearchNode * gset coord) :
  let t := (ex, ey) in
  bfs_inv maze s t st →
  match bfs_body ex ey maze (grid_width maze) (maze_height maze) st with
  | Ret (Continue st') => bfs_inv maze s t st' ∧ (bfs_mu maze s st' < bfs_mu maze s st)%nat
  | Ret (Done r) => shortest_post maze s t (Ret r)
  | TypeError => shortest_post maze s t TypeError
  | OutOfFuel => False
  end.
Proof.
  destruct st as [queue visited].
  intros t (Hnodes & Hsorted & Hspread & Hcl & Hnear & Ht & Hs). simpl in *.
  destruct queue as [|node queue]; simpl.
  - right. split; [done|]. intros Hreach.
    assert (t ∈ visited) as Htv.
    { eapply closed_reachable; [exact Hs| |done]. intros u v Hu Hst.
      eapply Hcl; [done| |done]. apply not_elem_of_nil. }
    apply Ht in Htv. by apply elem_of_nil in Htv.
  - apply Forall_cons in Hnodes as [(Hpath & Hnd & Hsub & Hopt) Hnodes].
    apply StronglySorted_cons in Hsorted as [Hmin Hsorted].
    fold (sn_coord node). set (c := sn_coord node) in *.
    destruct ((sn_x node =? ex) && (sn_y node =? ey)) eqn:Hgoal; simpl.
    + apply eqb_goal in Hgoal. left. assert (c = t) as Hct by exact Hgoal.
      destruct Hpath as (rest & Hrest & Hp). rewrite Hrest in *. simpl.
      fold c in Hp. rewrite Hct in Hp. split; [|done]. split; [done|].
      intros q Hq. rewrite <- Hct in Hq. apply Hopt in Hq. unfold lvl in Hq.
      rewrite Hrest in Hq. simpl in Hq. lia.
    + apply eqb_goal_false in Hgoal.
      set (L := lvl node).
      set (P := λ (pre : list Direction) (st : list SearchNode * gset coord),
           visited ⊆ st.2 ∧
           Forall (bfs_node_ok maze s st.2) st.1 ∧
           StronglySorted lvl_le st.1 ∧
           Forall (λ a, L ≤ lvl a ≤ L + 1)%nat st.1 ∧
           (∀ v, v ∈ sn_coord <$> queue → v ∈ sn_coord <$> st.1) ∧
           (∀ u, u ∈ st.2 → u ∉ visited → u ∈ sn_coord <$> st.1) ∧
           (∀ d v, d ∈ pre → step_via maze c d v → v ∈ st.2) ∧
           (2 * remaining maze s st.2 + length st.1 ≤
            2 * remaining maze s visited + length queue)%nat).
      assert (P [] (queue, visited)) as HP0.
      { split_and!; simpl; [done|done|done| |done|done| |lia].
        - apply Forall_forall. intros a Ha. split; [by eapply Forall_forall in Hmin|].
          apply (Hspread node a); [by left|by right].
        - intros d v Hd. by apply elem_of_nil in Hd. }
      assert (∀ pre d st, P pre st → d ∈ directions →
        match bfs_neighbor maze (grid_width maze) (maze_height maze) (sn_x node) (sn_y node)
                (sn_path node) st d with
        | Ret st' => P (pre ++ [d]) st'
        | TypeError => has_hole maze s
        | OutOfFuel => False
        end) as Hstep.
      { intros pre d [q V] (HV & Hq & Hqs & Hqb & Hmono & Hfresh & Hnew & Hmu) Hd.
        simpl in *. unfold bfs_neighbor.
        pose proof (canStep_spec maze (sn_x node) (sn_y node) d) as Hcs.
        destruct (canStep _ _ _ _ _ _) as [[|]| |]; simpl; [| | |done].
        - set (v := (sn_x node + dx d, sn_y node + dy d)) in *.
          destruct (bool_decide (v ∉ V)) eqn:Hv.
          + apply bool_decide_eq_true in Hv.
            destruct (bfs_child_ok maze s visited V node d v) as (Hc1 & Hc2 & Hc3);
              [done|done|done| |done|done|].
            { intros u q0 Hq0 Hlen. eapply (Hnear node); done. }
            split_and!; simpl.
            * set_solver.
            * apply Forall_app. split; [|by apply Forall_singleton].
              eapply Forall_impl; [exact Hq|]. intros a (? & ? & Ha & ?).
              split_and!; [done..| |done]. intros b Hb. apply elem_of_union. right. auto.
            * apply StronglySorted_app. split_and!; [|done|repeat constructor].
              intros a b Ha Hb. apply list_elem_of_singleton in Hb as ->.
              eapply Forall_forall in Hqb; [|exact Ha]. unfold lvl_le.
              simpl in Hc2. fold L in Hc2. lia.
            * apply Forall_app. split; [done|]. apply Forall_singleton.
              simpl in Hc2. fold L in Hc2. lia.
            * intros v' Hv'. rewrite fmap_app. apply elem_of_app. left. auto.
            * intros u Hu Hnu. rewrite fmap_app. apply elem_of_app.
              apply elem_of_union in Hu as [Hu|Hu]; [|left; auto].
              apply elem_of_singleton in Hu as ->. right. simpl.
              apply list_elem_of_singleton. done.
            * intros d' v' Hd' Hst'. apply elem_of_app in Hd' as [Hd'|Hd'].
              -- apply elem_of_union. right. eauto.
              -- apply list_elem_of_singleton in Hd' as ->. destruct Hst' as [-> _].
                 apply elem_of_union. left. by apply elem_of_singleton.
            * rewrite length_app. simpl.
              assert (remaining maze s ({[v]} ∪ V) < remaining maze s V)%nat.
              { apply remaining_insert; [|done]. right. apply Hcs. }
              lia.
          + apply bool_decide_eq_false in Hv. apply dec_stable in Hv.
            split_and!; simpl; [done..| |done].
            intros d' v' Hd' Hst'. apply elem_of_app in Hd' as [Hd'|Hd']; [eauto|].
            apply list_elem_of_singleton in Hd' as ->. by destruct Hst' as [-> _].
        - split_and!; simpl; [done..| |done].
          intros d' v' Hd' Hst'. apply elem_of_app in Hd' as [Hd'|Hd']; [eauto|].
          apply list_elem_of_singleton in Hd' as ->. by apply Hcs in Hst'.
        - exists c. split; [|apply Hcs]. destruct (path_ok_in_grid _ _ _ Hpath); auto. }
      pose proof (for_each_inv _ P (has_hole maze s) _ _ HP0 Hstep) as Hfold.
      destruct (for_each _ _ _) as [[q' V']| |]; simpl; [|done..].
      destruct Hfold as (HV & Hq & Hqs & Hqb & Hmono & Hfresh & Hnew & Hmu). simpl in *.
      split; [|unfold bfs_mu; simpl; lia].
      assert (∀ u v, u ∈ V' → u ∉ sn_coord <$> q' → step maze u v → v ∈ V') as Hcl'.
      { intros u v Hu Hnq Hst. destruct (decide (u = c)) as [->|Hne].
        - destruct Hst as (d & Hd & Hst). eauto.
        - destruct (decide (u ∈ visited)) as [Huv|Huv]; [|by apply Hfresh in Huv].
          apply HV. eapply Hcl; [done| |done].
          intros Hin. apply elem_of_cons in Hin as [Hin|Hin]; [done|]. auto. }
      split_and!; simpl; [done|done| |done| | |auto].
      * intros a b Ha Hb. eapply Forall_forall in Hqb as Hqa; [|exact Ha].
        eapply Forall_forall in Hqb; [|exact Hb]. lia.
      * intros n v q Hhd Hq0 Hlen.
        destruct (decide (S (length q) ≤ L)%nat) as [Hle|Hgt].
        { apply HV. eapply (Hnear node); done. }
        assert (n ∈ q') as Hn by (destruct q'; [done|]; injection Hhd as ->; by left).
        eapply Forall_forall in Hqb as Hnb; [|exact Hn].
        assert (q ≠ []) as Hqne.
        { intros ->. simpl in *. assert (0 < L)%nat; [|lia].
          unfold L, lvl. destruct Hpath as (rest & -> & _). simpl. lia. }
        destruct (is_path_snoc_inv _ _ _ _ Hq0 Hqne) as (p' & u & -> & Hp' & Hst).
        rewrite length_app in *. simpl in *.
        assert (u ∈ visited) as Hu by (eapply (Hnear node); [done|done|lia]).
        eapply Hcl'; [apply HV, Hu| |done].
        intros Hin. apply list_elem_of_fmap in Hin as (m & Hm1 & Hm2).
        eapply Forall_forall in Hq as (_ & _ & _ & Hoptm); [|exact Hm2].
        rewrite Hm1 in Hp'. apply Hoptm in Hp'.
        destruct q' as [|n' q'']; [by apply elem_of_nil in Hm2|].
        injection Hhd as ->. apply StronglySorted_cons in Hqs as [Hmin' _].
        apply elem_of_cons in Hm2 as [->|Hm2]; [lia|].
        eapply Forall_forall in Hmin'; [|exact Hm2]. unfold lvl_le in Hmin'. lia.
      * intros Htv. destruct (decide (t ∈ visited)) as [Htv'|Htv']; [|auto].
        apply Ht in Htv'.
        apply elem_of_cons in Htv' as [Htv'|Htv']; [|auto].
        exfalso. apply Hgoal. symmetry. exact Htv'.
Qed.

Lemma bfs_spec (maze : Maze) (sx sy ex ey : Z) :
  maze ≠ [] → shortest_post maze (sx, sy) (ex, ey) (bfs sx sy ex ey maze).
Proof.
  intros Hne. destruct maze as [|row maze]; [done|]. unfold bfs.
  rewrite maze_width_cons. simpl.
  apply (while_loop_inv _ (bfs_inv (row :: maze) (sx, sy) (ex, ey))
           (bfs_mu (row :: maze) (sx, sy))).
  - intros st Hst. exact (bfs_body_ok (row :: maze) (sx, sy) ex ey st Hst).
  - assert (sn_coord (mkNode sx sy [(sx, sy)]) = (sx, sy)) as Hc by done.
    split_and!; simpl.
    + apply Forall_singleton. split_and!.
      * exists []. split; [done|apply is_path_nil].
      * apply NoDup_singleton.
      * intros a Ha. apply list_elem_of_singleton in Ha as ->. by apply elem_of_singleton.
      * intros q _. unfold lvl. simpl. lia.
    + repeat constructor.
    + intros a b Ha Hb. apply list_elem_of_singleton in Ha as ->.
      apply list_elem_of_singleton in Hb as ->. lia.
    + intros u v Hu Hnu. apply elem_of_singleton in Hu as ->.
      exfalso. apply Hnu. by apply list_elem_of_singleton.
    + intros n v q [= <-] Hq Hlen. unfold lvl in Hlen. simpl in Hlen.
      destruct q; [|simpl in Hlen; lia]. apply is_path_nil_inv in Hq as <-.
      by apply elem_of_singleton.
    + intros Ht. apply elem_of_singleton in Ht. by apply list_elem_of_singleton.
    + by apply elem_of_singleton.
  - unfold bfs_mu. simpl. pose proof (remaining_bound (row :: maze) (sx, sy) {[(sx, sy)]}). lia.
Qed.

(** ** The stable sort *)

Section sort_by.
Context {A : Type} (cmp : A → A → comparison) (key : A → Z).

Lemma insert_by_perm a l : insert_by cmp a l ≡ₚ a :: l.
Proof.
  induction l as [|b l IH]; simpl; [done|].
  destruct (cmp a b); try done. rewrite IH. apply Permutation_swap.
Qed.

Lemma sort_by_perm l : sort_by cmp l ≡ₚ l.
Proof.
  induction l as [|a l IH]; simpl; [done|].
  unfold sort_by in *. simpl. by rewrite insert_by_perm, IH.
Qed.

Lemma sort_by_nil l : sort_by cmp l = [] → l = [].
Proof. intros H. apply Permutation_nil_r. rewrite <- H. by rewrite sort_by_perm. Qed.

(** The loop tests [openSet.length > 0] before it sorts; sorting keeps the
    length. *)
Lemma sort_by_match {B} l (a b : B) (k : A → list A → B) :
  match l with
  | [] => a
  | _ :: _ => match sort_by cmp l with [] => b | x :: rest => k x rest end
  end = match sort_by cmp l with [] => a | x :: rest => k x rest end.
Proof.
  destruct l as [|y l]; [done|].
  destruct (sort_by cmp (y :: l)) eqn:Hs; [|done]. by apply sort_by_nil in Hs.
Qed.

(** Where the comparator is the comparison of integer keys, the head of the
    sorted array has the least key. *)
Lemma insert_by_sorted a l :
  (∀ b, b ∈ l → cmp a b = (key a ?= key b)) →
  StronglySorted (λ x y, key x ≤ key y) l →
  StronglySorted (λ x y, key x ≤ key y) (insert_by cmp a l).
Proof.
  intros Hcmp Hl. induction l as [|b l IH]; simpl; [repeat constructor|].
  apply StronglySorted_cons in Hl as [Hb Hl].
  rewrite (Hcmp b) by by left.
  destruct (Z.compare_spec (key a) (key b)) as [Heq|Hlt|Hgt].
  - apply StronglySorted_cons. split; [|by apply StronglySorted_cons].
    apply Forall_cons. split; [lia|]. eapply Forall_impl; [exact Hb|]. simpl. lia.
  - apply StronglySorted_cons. split; [|by apply StronglySorted_cons].
    apply Forall_cons. split; [lia|]. eapply Forall_impl; [exact Hb|]. simpl. lia.
  - apply StronglySorted_cons. split.
    + apply Forall_forall. intros x Hx. rewrite insert_by_perm in Hx.
      apply elem_of_cons in Hx as [->|Hx]; [lia|]. by eapply Forall_forall in Hb.
    + apply IH; [|done]. intros x Hx. apply Hcmp. by right.
Qed.

Lemma sort_by_sorted l :
  (∀ a b, a ∈ l → b ∈ l → cmp a b = (key a ?= key b)) →
  StronglySorted (λ x y, key x ≤ key y) (sort_by cmp l).
Proof.
  intros Hcmp. induction l as [|a l IH]; [constructor|].
  unfold sort_by in *. simpl. apply insert_by_sorted.
  - intros b Hb. apply Hcmp; [by left|]. right.
    by rewrite <- (sort_by_perm l).
  - apply IH. intros x y Hx Hy. apply Hcmp; by right.
Qed.

Lemma sort_by_head_min l x rest :
  (∀ a b, a ∈ l → b ∈ l → cmp a b = (key a ?= key b)) →
  sort_by cmp l = x :: rest →
  x :: rest ≡ₚ l ∧ ∀ m, m ∈ l → key x ≤ key m.
Proof.
  intros Hcmp Hsort. pose proof (sort_by_perm l) as Hperm. rewrite Hsort in Hperm.
  split; [done|]. intros m Hm. rewrite <- Hperm in Hm.
  pose proof (sort_by_sorted l Hcmp) as Hs. rewrite Hsort in Hs.
  apply StronglySorted_cons in Hs as [Hmin _].
  apply elem_of_cons in Hm as [->|Hm]; [lia|]. by eapply Forall_forall in Hmin.
Qed.
End sort_by.

(** ** The heuristic is consistent *)

Lemma heuristic_step maze u v ex ey :
  step maze u v → heuristic u.1 u.2 ex ey ≤ 1 + heuristic v.1 v.2 ex ey.
Proof.
  intros (d & Hd & -> & _). unfold heuristic, move. simpl.
  unfold directions in Hd. repeat (apply elem_of_cons in Hd as [->|Hd]); simpl;
    [lia..|by apply elem_of_nil in Hd].
Qed.

Lemma heuristic_path maze u c q ex ey :
  is_path maze u c q → heuristic u.1 u.2 ex ey ≤ Z.of_nat (length q) + heuristic c.1 c.2 ex ey.
Proof.
  revert u. induction q as [|v q IH]; intros u Hq.
  - apply is_path_nil_inv in Hq as ->. simpl. lia.
  - apply is_path_cons in Hq as [Hst Hq]. apply IH in Hq.
    pose proof (heuristic_step maze u v ex ey Hst). simpl length. lia.
Qed.

(** ** The loop of [astar] *)

Lemma at_xy_true nx ny n : at_xy nx ny n = true ↔ sn_coord n = (nx, ny).
Proof. apply eqb_goal. Qed.

Lemma at_xy_false nx ny n : at_xy nx ny n = false ↔ sn_coord n ≠ (nx, ny).
Proof. apply eqb_goal_false. Qed.

Lemma set_path_coords nx ny p l : sn_coord <$> set_path nx ny p l = sn_coord <$> l.
Proof.
  induction l as [|n l IH]; simpl; [done|].
  destruct (at_xy nx ny n); [done|]. rewrite !fmap_cons. by rewrite IH.
Qed.

Lemma set_path_elem nx ny p l m :
  NoDup (sn_coord <$> l) → m ∈ set_path nx ny p l →
  m = mkNode nx ny p ∨ (m ∈ l ∧ sn_coord m ≠ (nx, ny)).
Proof.
  induction l as [|n l IH]; intros Hnd Hm; simpl in Hm; [by apply elem_of_nil in Hm|].
  rewrite fmap_cons in Hnd. apply NoDup_cons in Hnd as [Hn Hnd].
  destruct (at_xy nx ny n) eqn:Hat.
  - apply at_xy_true in Hat. apply elem_of_cons in Hm as [->|Hm].
    + left. injection Hat as -> ->. done.
    + right. split; [by right|]. intros Heq. apply Hn. rewrite Hat, <- Heq.
      by apply list_elem_of_fmap_2.
  - apply at_xy_false in Hat. apply elem_of_cons in Hm as [->|Hm].
    + right. split; [by left|done].
    + destruct (IH Hnd Hm) as [->|[? ?]]; [by left|]. right. split; [by right|done].
Qed.

Lemma find_at_xy_Some nx ny l m :
  find (at_xy nx ny) l = Some m → m ∈ l ∧ sn_coord m = (nx, ny).
Proof.
  intros H. apply find_some in H as [Hin Hat]. split; [by apply list_elem_of_In|].
  by apply at_xy_true.
Qed.

Lemma find_at_xy_None nx ny l :
  find (at_xy nx ny) l = None → (nx, ny) ∉ sn_coord <$> l.
Proof.
  intros H Hin. apply list_elem_of_fmap in Hin as (m & Hm & Hin).
  apply list_elem_of_In in Hin. pose proof (find_none _ _ H m Hin) as Hat.
  apply at_xy_false in Hat. congruence.
Qed.

(** A path from the start to itself that repeats no coordinate is empty. *)
Lemma path_ok_start maze s n :
  path_ok maze s n → NoDup (sn_path n) → sn_coord n = s → sn_path n = [s].
Proof.
  intros (rest & Hrest & Hp) Hnd Hc. rewrite Hrest in *. destruct rest as [|v rest]; [done|].
  exfalso. apply is_path_last in Hp. rewrite Hc in Hp. simpl in Hp.
  apply NoDup_cons in Hnd as [Hs _]. apply Hs.
  change (last (v :: rest) = Some s) in Hp. apply last_Some in Hp as [l' ->].
  apply elem_of_app. right. by apply list_elem_of_singleton.
Qed.

(** Every path from the start to a coordinate that is not closed goes through
    a node of [openSet] whose cost so far is no worse than the path's. *)
Lemma astar_frontier (maze : Maze) (s t : coord) (openSet : list SearchNode)
    (closedSet : gset coord) (gScore : gmap coord num) (c : coord) (q : list coord) :
  astar_inv maze s t (openSet, closedSet, gScore) →
  is_path maze s c q → c ∉ closedSet →
  ∃ m q2, m ∈ openSet ∧ is_path maze (sn_coord m) c q2 ∧
          (lvl m - 1 + length q2 ≤ length q)%nat.
Proof.
  intros (Hnodes & Hnd & Hopt & Hcl & Ht & Hs) Hq Hc.
  destruct (decide (s ∈ closedSet)) as [Hsc|Hsc].
  - destruct (path_exit maze closedSet s c q Hsc Hc Hq)
      as (p1 & u & v & p2 & -> & Hp1 & Hu & Hv & Hst & Hp2).
    destruct (Hopt u Hu) as (gu & Hgu & Hgopt). specialize (Hgopt p1 Hp1).
    destruct (Hcl u v Hu Hst) as [?|(Hvo & gu' & gv & Hgu' & Hgv & Hle)]; [done|].
    apply list_elem_of_fmap in Hvo as (m & Hm & Hmo).
    eapply Forall_forall in Hnodes as (_ & _ & _ & Hgm); [|exact Hmo].
    exists m, p2. rewrite <- Hm. split_and!; [done..|].
    rewrite length_app. simpl. rewrite <- Hm in Hgm.
    assert (gu' = gu) as -> by congruence.
    assert (gv = Z.of_nat (lvl m) - 1) as -> by congruence. lia.
  - destruct Hs as [?|Hso]; [done|].
    apply list_elem_of_fmap in Hso as (m & Hm & Hmo).
    eapply Forall_forall in Hnodes as (Hpath & Hanc & Hmc & _); [|exact Hmo].
    exists m, q. rewrite <- Hm. split_and!; [done..|].
    unfold lvl. rewrite (path_ok_start maze s m); [simpl; lia|done| |done].
    by eapply anc_ok_NoDup.
Qed.

Lemma path_ok_lvl maze s n : path_ok maze s n → (1 ≤ lvl n)%nat.
Proof. intros (rest & Hrest & _). unfold lvl. rewrite Hrest. simpl. lia. Qed.

Lemma astar_child_ok (maze : Maze) (s : coord) (closedSet : gset coord)
    (g : gmap coord num) (n : SearchNode) (d : Direction) (v : coord) :
  path_ok maze s n → anc_ok closedSet n → sn_coord n ∉ closedSet →
  v ∉ {[ sn_coord n ]} ∪ closedSet →
  step_via maze (sn_coord n) d v → d ∈ directions →
  astar_node_ok maze s ({[ sn_coord n ]} ∪ closedSet)
    (<[v := Fin (Z.of_nat (lvl n) - 1 + 1)]> g) (mkNode v.1 v.2 (sn_path n ++ [v])).
Proof.
  intros Hpath Hanc Hn Hv Hst Hd.
  destruct (child_ok maze s closedSet n d v) as (Hc1 & Hc2 & _);
    [done|done|done|set_solver|set_solver|done|done|].
  assert (sn_coord (mkNode v.1 v.2 (sn_path n ++ [v])) = v) as Hcv by by destruct v.
  split_and!; [done|done|by rewrite Hcv|].
  rewrite Hcv, lookup_insert_eq. unfold lvl. simpl. rewrite length_app. simpl.
  do 2 f_equal. lia.
Qed.

Lemma astar_node_ok_insert (maze : Maze) (s : coord) (closedSet : gset coord)
    (g : gmap coord num) (n : SearchNode) (v : coord) (x : num) :
  astar_node_ok maze s closedSet g n → sn_coord n ≠ v →
  astar_node_ok maze s closedSet (<[v := x]> g) n.
Proof. intros (? & ? & ? & ?) Hne. split_and!; [done..|]. by rewrite lookup_insert_ne. Qed.

Lemma astar_body_ok (maze : Maze) (s : coord) (ex ey : Z)
    (st : list SearchNode * gset coord * gmap coord num) :
  let t := (ex, ey) in
  astar_inv maze s t st →
  match astar_body ex ey maze (grid_width maze) (maze_height maze) st with
  | Ret (Continue st') => astar_inv maze s t st' ∧ (astar_mu maze s st' < astar_mu maze s st)%nat
  | Ret (Done r) => shortest_post maze s t (Ret r)
  | TypeError => shortest_post maze s t TypeError
  | OutOfFuel => False
  end.
Proof.
  destruct st as [[openSet closedSet] gScore]. intros t Hinv.
  pose proof Hinv as (Hnodes & Hnd & Hopt & Hcl & Ht & Hs).
  unfold astar_body. rewrite sort_by_match.
  set (cmp := λ a b, num_compare (fScore gScore ex ey a) (fScore gScore ex ey b)).
  set (key := λ n, Z.of_nat (lvl n) - 1 + heuristic (sn_x n) (sn_y n) ex ey).
  assert (∀ a b, a ∈ openSet → b ∈ openSet → cmp a b = (key a ?= key b)) as Hcmp.
  { intros a b Ha Hb. unfold cmp, fScore, gget.
    eapply Forall_forall in Hnodes as Hna; [|exact Ha]. destruct Hna as (_ & _ & _ & Hga).
    eapply Forall_forall in Hnodes as Hnb; [|exact Hb]. destruct Hnb as (_ & _ & _ & Hgb).
    unfold sn_coord in Hga, Hgb. rewrite Hga, Hgb. done. }
  destruct (sort_by cmp openSet) as [|current rest] eqn:Hsort.
  - apply sort_by_nil in Hsort as ->. simpl. right. split; [done|]. intros Hreach. apply Ht.
    eapply closed_reachable; [| |done].
    + destruct Hs as [Hs|Hs]; [done|by apply elem_of_nil in Hs].
    + intros u v Hu Hst.
      destruct (Hcl u v Hu Hst) as [Hv|[Hv _]]; [done|by apply elem_of_nil in Hv].
  - destruct (sort_by_head_min cmp key openSet current rest Hcmp Hsort) as [Hperm Hmin].
    fold (sn_coord current). set (c := sn_coord current) in *.
    assert (∀ v, v ∈ sn_coord <$> openSet ↔ v = c ∨ v ∈ sn_coord <$> rest) as Hopen.
    { intros v. rewrite <- Hperm, fmap_cons. apply elem_of_cons. }
    rewrite <- Hperm in Hnodes, Hnd. rewrite fmap_cons in Hnd.
    apply NoDup_cons in Hnd as [Hcrest Hnd].
    apply Forall_cons in Hnodes as [(Hpath & Hanc & Hc & Hgc) Hnodes].
    fold c in Hcrest, Hc, Hgc. set (gc := Z.of_nat (lvl current) - 1) in *.
    assert (∀ q, is_path maze s c q → gc ≤ Z.of_nat (length q)) as Hgopt.
    { intros q Hq.
      destruct (astar_frontier maze s t openSet closedSet gScore c q Hinv Hq Hc)
        as (m & q2 & Hm & Hq2 & Hle).
      pose proof (Hmin m Hm) as Hkey. unfold key in Hkey.
      pose proof (heuristic_path maze (sn_coord m) c q2 ex ey Hq2) as Hh. simpl in Hh.
      assert (1 ≤ lvl m)%nat; [|unfold gc; lia].
      rewrite <- Hperm in Hm. apply elem_of_cons in Hm as [->|Hm]; [by eapply path_ok_lvl|].
      eapply Forall_forall in Hnodes as [? _]; [|exact Hm]. by eapply path_ok_lvl. }
    destruct ((sn_x current =? ex) && (sn_y current =? ey)) eqn:Hgoal; simpl.
    + apply eqb_goal in Hgoal. left. assert (c = t) as Hct by exact Hgoal.
      pose proof (anc_ok_NoDup _ _ Hanc Hc) as Hndp.
      destruct Hpath as (rest' & Hrest & Hp). rewrite Hrest in *. simpl.
      fold c in Hp. rewrite Hct in Hp. split; [|done]. split; [done|].
      intros q Hq. rewrite <- Hct in Hq. apply Hgopt in Hq. unfold gc, lvl in Hq.
      rewrite Hrest in Hq. simpl in Hq. lia.
    + apply eqb_goal_false in Hgoal.
      set (closed' := {[ c ]} ∪ closedSet).
      set (P := λ (pre : list Direction) (st : list SearchNode * gmap coord num),
           Forall (astar_node_ok maze s closed' st.2) st.1 ∧
           NoDup (sn_coord <$> st.1) ∧
           (∀ v, v ∈ sn_coord <$> rest → v ∈ sn_coord <$> st.1) ∧
           (∀ k, k ∈ closed' → st.2 !! k = gScore !! k) ∧
           (∀ k z, k ∈ sn_coord <$> rest → gScore !! k = Some (Fin z) →
              ∃ z', st.2 !! k = Some (Fin z') ∧ z' ≤ z) ∧
           (∀ d v, d ∈ pre → step_via maze c d v →
              v ∈ closed' ∨
              (v ∈ sn_coord <$> st.1 ∧ ∃ gv, st.2 !! v = Some (Fin gv) ∧ gv ≤ gc + 1))).
      assert (P [] (rest, gScore)) as HP0.
      { split_and!; simpl; [|done|done|done|eauto with lia|].
        - apply Forall_forall. intros n Hn.
          eapply Forall_forall in Hnodes as (? & ? & ? & ?); [|exact Hn].
          split_and!; [done| |  |done].
          + eapply anc_ok_mono; [|done]. set_solver.
          + intros Hin. apply elem_of_union in Hin as [Hin|Hin]; [|done].
            apply elem_of_singleton in Hin. apply Hcrest. rewrite <- Hin.
            by apply list_elem_of_fmap_2.
        - intros d v Hd. by apply elem_of_nil in Hd. }
      assert (c ∈ closed') as Hcc by (apply elem_of_union; left; by apply elem_of_singleton).
      assert (∀ pre d st, P pre st → d ∈ directions →
        match astar_neighbor maze (grid_width maze) (maze_height maze) (sn_x current)
                (sn_y current) (sn_path current) closed' st d with
        | Ret st' => P (pre ++ [d]) st'
        | TypeError => has_hole maze s
        | OutOfFuel => False
        end) as Hstep.
      { intros pre d [op g] (Hop & Hopnd & Hmono & Hclg & Hdec & Hnew) Hd.
        simpl in *. unfold astar_neighbor.
        pose proof (canStep_spec maze (sn_x current) (sn_y current) d) as Hcs.
        destruct (canStep _ _ _ _ _ _) as [[|]| |]; simpl; [| | |done].
        - set (v := (sn_x current + dx d, sn_y current + dy d)) in *.
          assert (∀ (op' : list SearchNode) (g' : gmap coord num),
            (∀ d' v', d' ∈ pre → step_via maze c d' v' →
               v' ∈ closed' ∨
               (v' ∈ sn_coord <$> op' ∧ ∃ gv, g' !! v' = Some (Fin gv) ∧ gv ≤ gc + 1)) →
            (v ∈ closed' ∨
             (v ∈ sn_coord <$> op' ∧ ∃ gv, g' !! v = Some (Fin gv) ∧ gv ≤ gc + 1)) →
            ∀ d' v', d' ∈ pre ++ [d] → step_via maze c d' v' →
               v' ∈ closed' ∨
               (v' ∈ sn_coord <$> op' ∧ ∃ gv, g' !! v' = Some (Fin gv) ∧ gv ≤ gc + 1))
            as Hext.
          { intros op' g' Hold Hv d' v' Hd' Hst'.
            apply elem_of_app in Hd' as [Hd'|Hd']; [eauto|].
            apply list_elem_of_singleton in Hd' as ->. by destruct Hst' as [-> _]. }
          destruct (decide (v ∈ closed')) as [Hv|Hv].
          { split_and!; simpl; [done..|]. apply Hext; [done|by left]. }
          assert (gget g (sn_x current, sn_y current) = Fin gc) as Hggc.
          { change (default Infinity (g !! c) = Fin gc). rewrite Hclg by done. by rewrite Hgc. }
          rewrite Hggc. simpl.
          pose proof (astar_child_ok maze s closedSet g current d v Hpath Hanc Hc Hv Hcs Hd)
            as Hchild. fold c closed' gc in Hchild.
          destruct (find (at_xy _ _) op) as [m|] eqn:Hfind.
          + apply find_at_xy_Some in Hfind as [Hm Hmv]. fold v in Hmv.
            eapply Forall_forall in Hop as Hmok; [|exact Hm].
            destruct Hmok as (_ & _ & _ & Hgm). rewrite Hmv in Hgm.
            assert (v ∈ sn_coord <$> op) as Hvop.
            { rewrite <- Hmv. by apply list_elem_of_fmap_2. }
            unfold gget at 1. rewrite Hgm. simpl.
            destruct (gc + 1 <? Z.of_nat (lvl m) - 1) eqn:Hlt.
            * apply Z.ltb_lt in Hlt. split_and!; simpl.
              -- apply Forall_forall. intros m' Hm'.
                 apply set_path_elem in Hm' as [->|[Hm' Hne]]; [exact Hchild| |done].
                 apply astar_node_ok_insert; [|done]. by eapply Forall_forall in Hop.
              -- by rewrite set_path_coords.
              -- rewrite set_path_coords. done.
              -- intros k Hk. rewrite lookup_insert_ne; [auto|]. by intros <-.
              -- intros k z Hk Hz. destruct (Hdec k z Hk Hz) as (z' & Hz' & Hle).
                 destruct (decide (v = k)) as [<-|Hne].
                 ++ rewrite lookup_insert_eq. eexists. split; [done|].
                    assert (z' = Z.of_nat (lvl m) - 1) by congruence. lia.
                 ++ rewrite lookup_insert_ne by done. eauto.
              -- apply Hext.
                 ++ intros d' v' Hd' Hst'. rewrite set_path_coords.
                    destruct (Hnew d' v' Hd' Hst') as [?|(? & gv & Hgv & Hle)]; [by left|right].
                    split; [done|]. destruct (decide (v = v')) as [<-|Hne].
                    ** rewrite lookup_insert_eq. eexists. split; [done|lia].
                    ** rewrite lookup_insert_ne by done. eauto.
                 ++ right. rewrite set_path_coords. split; [done|].
                    rewrite lookup_insert_eq. eexists. split; [done|lia].
            * apply Z.ltb_ge in Hlt. split_and!; simpl; [done..|].
              apply Hext; [done|]. right. split; [done|]. eauto.
          + apply find_at_xy_None in Hfind. fold v in Hfind.
            split_and!; simpl.
            * apply Forall_app. split; [|by apply Forall_singleton].
              apply Forall_forall. intros m' Hm'. apply astar_node_ok_insert.
              -- by eapply Forall_forall in Hop.
              -- intros Heq. apply Hfind. rewrite <- Heq. by apply list_elem_of_fmap_2.
            * rewrite fmap_app. apply NoDup_app. split_and!; [done| |apply NoDup_singleton].
              intros k Hk Hin. apply list_elem_of_singleton in Hin. simpl in Hin.
              by rewrite Hin in Hk.
            * intros k Hk. rewrite fmap_app. apply elem_of_app. left. auto.
            * intros k Hk. rewrite lookup_insert_ne; [auto|]. by intros <-.
            * intros k z Hk Hz. rewrite lookup_insert_ne; [eauto|].
              intros <-. apply Hfind. auto.
            * apply Hext.
              -- intros d' v' Hd' Hst'. rewrite fmap_app.
                 destruct (Hnew d' v' Hd' Hst') as [?|(? & gv & Hgv & Hle)]; [by left|right].
                 split; [apply elem_of_app; by left|].
                 rewrite lookup_insert_ne; [eauto|]. by intros <-.
              -- right. rewrite fmap_app. split.
                 ++ apply elem_of_app. right. apply list_elem_of_singleton. done.
                 ++ rewrite lookup_insert_eq. eexists. split; [done|lia].
        - split_and!; simpl; [done..|].
          intros d' v' Hd' Hst'. apply elem_of_app in Hd' as [Hd'|Hd']; [eauto|].
          apply list_elem_of_singleton in Hd' as ->. by apply Hcs in Hst'.
        - exists c. split; [|apply Hcs]. destruct (path_ok_in_grid _ _ _ Hpath); auto. }
      pose proof (for_each_inv _ P (has_hole maze s) _ _ HP0 Hstep) as Hfold.
      destruct (for_each _ _ _) as [[op g]| |]; simpl; [|done..].
      destruct Hfold as (Hop & Hopnd & Hmono & Hclg & Hdec & Hnew). simpl in *.
      split.
      * split_and!; [done|done| | | |].
        -- intros k Hk. rewrite Hclg by done. apply elem_of_union in Hk as [Hk|Hk]; [|auto].
           apply elem_of_singleton in Hk as ->. eauto.
        -- intros u v Hu Hst. apply elem_of_union in Hu as [Hu|Hu].
           ++ apply elem_of_singleton in Hu as ->. destruct Hst as (d & Hd & Hst).
              destruct (Hnew d v Hd Hst) as [?|(? & gv & Hgv & Hle)]; [by left|right].
              split; [done|]. exists gc, gv. split_and!; [|done..]. by rewrite Hclg.
           ++ destruct (Hcl u v Hu Hst) as [Hv|(Hv & gu & gv & Hgu & Hgv & Hle)].
              { left. apply elem_of_union. by right. }
              apply Hopen in Hv as [->|Hv]; [by left|]. right. split; [auto|].
              destruct (Hdec v gv Hv Hgv) as (z' & Hz' & Hle').
              exists gu, z'. split_and!; [|done|lia]. rewrite Hclg; [done|].
              apply elem_of_union. by right.
        -- intros Hin. apply elem_of_union in Hin as [Hin|Hin]; [|done].
           apply elem_of_singleton in Hin. apply Hgoal. symmetry. exact Hin.
        -- destruct Hs as [Hs|Hs]; [left; apply elem_of_union; by right|].
           apply Hopen in Hs as [->|Hs]; [by left|right; auto].
      * unfold astar_mu. simpl. apply remaining_insert; [|done]. by apply path_ok_in_grid.
Qed.

Lemma astar_spec (maze : Maze) (sx sy ex ey : Z) :
  maze ≠ [] → shortest_post maze (sx, sy) (ex, ey) (astar sx sy ex ey maze).
Proof.
  intros Hne. destruct maze as [|row maze]; [done|]. unfold astar.
  rewrite maze_width_cons. simpl.
  apply (while_loop_inv _ (astar_inv (row :: maze) (sx, sy) (ex, ey))
           (astar_mu (row :: maze) (sx, sy))).
  - intros st Hst. exact (astar_body_ok (row :: maze) (sx, sy) ex ey st Hst).
  - split_and!; simpl.
    + apply Forall_singleton. split_and!.
      * exists []. split; [done|apply is_path_nil].
      * exists []. split_and!; [done|apply NoDup_nil_2|]. intros a Ha. by apply elem_of_nil in Ha.
      * apply not_elem_of_empty.
      * by rewrite lookup_singleton_eq.
    + apply NoDup_singleton.
    + intros c Hc. by apply not_elem_of_empty in Hc.
    + intros u v Hu. by apply not_elem_of_empty in Hu.
    + apply not_elem_of_empty.
    + right. by apply list_elem_of_singleton.
  - unfold astar_mu. simpl. pose proof (remaining_bound (row :: maze) (sx, sy) ∅). lia.
Qed.

(** ** Exploration order *)

Lemma expansion_order_nil maze s : expansion_order maze s [].
Proof. intros l1 c l2 H. by destruct l1. Qed.

Lemma expansion_order_snoc maze s l c u :
  expansion_order maze s l → u ∈ s :: l → step maze u c →
  expansion_order maze s (l ++ [c]).
Proof.
  intros Hl Hu Hst l1 c' l2 Heq.
  destruct l2 as [|x l2 _] using rev_ind.
  - apply app_inj_tail in Heq as [-> ->]. by exists u.
  - rewrite app_comm_cons, app_assoc in Heq. apply app_inj_tail in Heq as [-> ->].
    by eapply Hl.
Qed.

Lemma expansion_order_reachable maze s l c :
  expansion_order maze s l → c ∈ s :: l → reachable maze s c.
Proof.
  revert c. induction l as [|x l IH] using rev_ind; intros c Hl Hc.
  - apply list_elem_of_singleton in Hc as ->. exists []. apply is_path_nil.
  - assert (expansion_order maze s l) as Hl'.
    { intros l1 c' l2 ->. apply (Hl l1 c' (l2 ++ [x])). by rewrite <- app_assoc. }
    rewrite app_comm_cons in Hc. apply elem_of_app in Hc as [Hc|Hc]; [by apply IH|].
    apply list_elem_of_singleton in Hc as ->.
    destruct (Hl l x [] eq_refl) as (u & Hu & Hst).
    destruct (IH u Hl' Hu) as [p Hp]. exists (p ++ [x]). by eapply is_path_snoc.
Qed.

(** ** The loop of [dfsExplore] *)

Lemma dfsExplore_body_ok (maze : Maze) (s : coord) (ex ey : Z)
    (st : list coord * gset coord * list coord) :
  let t := (ex, ey) in
  dfsExplore_inv maze s t st →
  match dfsExplore_body ex ey maze (grid_width maze) (maze_height maze) st with
  | Ret (Continue st') =>
      dfsExplore_inv maze s t st' ∧ (dfsExplore_mu maze s st' < dfsExplore_mu maze s st)%nat
  | Ret (Done r) => explore_post maze s t (Ret r)
  | TypeError => explore_post maze s t TypeError
  | OutOfFuel => False
  end.
Proof.
  destruct st as [[stack visited] explored].
  intros t (Hfirst & Hnd & Hexp & Hpar & Hcl & Ht).
  destruct stack as [|[x y] stack]; simpl.
  - destruct Hfirst as [(_ & ? & _)|(e & -> & Hord)]; [done|]. simpl.
    assert (∀ c, reachable maze s c → c ∈ visited) as Hall.
    { intros c. apply closed_reachable.
      - apply Hexp. by left.
      - intros u v Hu Hst. destruct (Hcl u v Hu Hst) as [?|Hv]; [done|].
        by apply elem_of_nil in Hv. }
    split_and!; [done|done|]. right. split; [intros Hr; by apply Ht, Hall|].
    intros c Hc. by apply Hexp, Hall.
  - set (c := (x, y)) in *.
    destruct (decide (c ∈ visited)) as [Hc|Hc]; simpl.
    + split; [|unfold dfsExplore_mu; simpl; lia]. split_and!; [|done|done| | |done].
      * destruct Hfirst as [(_ & [= <- ->] & ->)|?]; [|by right].
        by apply not_elem_of_empty in Hc.
      * intros v Hv. apply Hpar. by right.
      * intros u v Hu Hst. destruct (Hcl u v Hu Hst) as [Hv|Hv]; [by left|].
        apply elem_of_cons in Hv as [->|Hv]; auto.
    + assert (c = s ∨ in_grid maze c) as Hcs.
      { destruct (Hpar c) as [?|(u & _ & Hst)]; [by left|by left|].
        right. by eapply step_in_grid. }
      assert (∃ e, explored ++ [c] = s :: e ∧ expansion_order maze s e ∧
                   NoDup (s :: e)) as (e' & He' & Hord' & Hnd').
      { destruct Hfirst as [(-> & [= <- ->] & ->)|(e & -> & Hord)].
        - exists []. split_and!; [done|apply expansion_order_nil|apply NoDup_singleton].
        - exists (e ++ [c]). split; [done|].
          assert (c ∉ s :: e) as Hce by (intros Hin; by apply Hc, Hexp).
          split.
          + destruct (Hpar c) as [->|(u & Hu & Hst)]; [by left|exfalso; apply Hce; by left|].
            eapply expansion_order_snoc; [done| |done]. by apply Hexp.
          + rewrite app_comm_cons. apply NoDup_app. split_and!; [done| |apply NoDup_singleton].
            intros a Ha Hin. apply list_elem_of_singleton in Hin as ->. done. }
      assert (∀ a, a ∈ explored ++ [c] ↔ a ∈ {[c]} ∪ visited) as Hexp'.
      { intros a. rewrite elem_of_app, list_elem_of_singleton, elem_of_union,
          elem_of_singleton, Hexp. tauto. }
      destruct ((x =? ex) && (y =? ey)) eqn:Hgoal; simpl.
      * apply eqb_goal in Hgoal. assert (c = t) as Hct by exact Hgoal. rewrite He'. simpl.
        split_and!; [done|done|]. left.
        assert (c ∈ s :: e') as Hin.
        { rewrite <- He'. apply elem_of_app. right. by apply list_elem_of_singleton. }
        split; [rewrite <- Hct; by eapply expansion_order_reachable|].
        rewrite <- He', last_snoc. by rewrite <- Hct.
      * apply eqb_goal_false in Hgoal.
        set (visited' := {[ c ]} ∪ visited).
        set (P := λ (pre : list Direction) (stk : list coord),
             (∀ v, v ∈ stk → v = s ∨ ∃ u, u ∈ visited' ∧ step maze u v) ∧
             (∀ v, v ∈ stack → v ∈ stk) ∧
             (∀ d v, d ∈ pre → step_via maze c d v → v ∈ visited' ∨ v ∈ stk) ∧
             (length stk ≤ length stack + length pre)%nat).
        assert (P [] stack) as HP0.
        { split_and!; [|done| |simpl; lia].
          - intros v Hv. destruct (Hpar v) as [?|(u & Hu & Hst)]; [by right|by left|].
            right. exists u. split; [|done]. apply elem_of_union. by right.
          - intros d v Hd. by apply elem_of_nil in Hd. }
        assert (∀ pre d stk, P pre stk → d ∈ reverse directions →
          match dfsExplore_neighbor maze (grid_width maze) (maze_height maze) x y
                  visited' stk d with
          | Ret stk' => P (pre ++ [d]) stk'
          | TypeError => has_hole maze s
          | OutOfFuel => False
          end) as Hstep.
        { intros pre d stk (Hstk & Hmono & Hnew & Hlen) Hd. apply elem_of_reverse in Hd.
          unfold dfsExplore_neighbor. pose proof (canStep_spec maze x y d) as Hcan.
          destruct (canStep _ _ _ _ _ _) as [[|]| |]; simpl; [| | |done].
          - set (v := (x + dx d, y + dy d)) in *.
            destruct (bool_decide (v ∉ visited')) eqn:Hv.
            + apply bool_decide_eq_true in Hv. split_and!.
              * intros v' Hv'. apply elem_of_cons in Hv' as [->|Hv']; [|auto].
                right. exists c. split; [|by exists d].
                apply elem_of_union. left. by apply elem_of_singleton.
              * intros v' Hv'. right. auto.
              * intros d' v' Hd' Hst'. apply elem_of_app in Hd' as [Hd'|Hd'].
                -- destruct (Hnew d' v' Hd' Hst'); [by left|right; by right].
                -- apply list_elem_of_singleton in Hd' as ->. right.
                   destruct Hst' as [-> _]. by left.
              * rewrite length_app. simpl. lia.
            + apply bool_decide_eq_false in Hv. apply dec_stable in Hv.
              split_and!; [done..| |rewrite length_app; simpl; lia].
              intros d' v' Hd' Hst'. apply elem_of_app in Hd' as [Hd'|Hd']; [eauto|].
              apply list_elem_of_singleton in Hd' as ->. left. by destruct Hst' as [-> _].
          - split_and!; [done..| |rewrite length_app; simpl; lia].
            intros d' v' Hd' Hst'. apply elem_of_app in Hd' as [Hd'|Hd']; [eauto|].
            apply list_elem_of_singleton in Hd' as ->. by apply Hcan in Hst'.
          - exists c. split; [done|apply Hcan]. }
        pose proof (for_each_inv _ P (has_hole maze s) _ _ HP0 Hstep) as Hfold.
        destruct (for_each _ _ _) as [stk| |]; simpl; [|done..].
        destruct Hfold as (Hstk & Hmono & Hnew & Hlen). split.
        -- split_and!; [|by rewrite He'|done|done| |].
           ++ right. exists e'. by split.
           ++ intros u v Hu Hst. apply elem_of_union in Hu as [Hu|Hu].
              ** apply elem_of_singleton in Hu as ->. destruct Hst as (d & Hd & Hst).
                 eapply Hnew; [|done]. by apply elem_of_reverse.
              ** destruct (Hcl u v Hu Hst) as [Hv|Hv].
                 { left. apply elem_of_union. by right. }
                 apply elem_of_cons in Hv as [->|Hv]; [|auto].
                 left. apply elem_of_union. left. by apply elem_of_singleton.
           ++ intros Hin. apply elem_of_union in Hin as [Hin|Hin]; [|done].
              apply elem_of_singleton in Hin. apply Hgoal. symmetry. exact Hin.
        -- unfold dfsExplore_mu. simpl.
           assert (remaining maze s visited' < remaining maze s visited)%nat.
           { by apply remaining_insert. }
           rewrite length_reverse in Hlen. unfold directions in Hlen. simpl in Hlen. lia.
Qed.

Lemma dfsExplore_spec (maze : Maze) (sx sy ex ey : Z) :
  maze ≠ [] → explore_post maze (sx, sy) (ex, ey) (dfsExplore sx sy ex ey maze).
Proof.
  intros Hne. destruct maze as [|row maze]; [done|]. unfold dfsExplore.
  rewrite maze_width_cons. simpl.
  apply (while_loop_inv _ (dfsExplore_inv (row :: maze) (sx, sy) (ex, ey))
           (dfsExplore_mu (row :: maze) (sx, sy))).
  - intros st Hst. exact (dfsExplore_body_ok (row :: maze) (sx, sy) ex ey st Hst).
  - split_and!.
    + by left.
    + apply NoDup_nil_2.
    + intros c. split; intros Hc; [by apply elem_of_nil in Hc|by apply not_elem_of_empty in Hc].
    + intros v Hv. apply list_elem_of_singleton in Hv. by left.
    + intros u v Hu. by apply not_elem_of_empty in Hu.
    + apply not_elem_of_empty.
  - unfold dfsExplore_mu. simpl. pose proof (remaining_bound (row :: maze) (sx, sy) ∅). lia.
Qed.

(** ** The loop of [bfsExplore] *)

Lemma bfsExplore_body_ok (maze : Maze) (s : coord) (ex ey : Z)
    (st : list coord * gset coord * list coord) :
  let t := (ex, ey) in
  bfsExplore_inv maze s t st →
  match bfsExplore_body ex ey maze (grid_width maze) (maze_height maze) st with
  | Ret (Continue st') =>
      bfsExplore_inv maze s t st' ∧ (bfsExplore_mu maze s st' < bfsExplore_mu maze s st)%nat
  | Ret (Done r) => explore_post maze s t (Ret r)
  | TypeError => explore_post maze s t TypeError
  | OutOfFuel => False
  end.
Proof.
  destruct st as [[queue visited] explored].
  intros t (Hfirst & Hnd & Hvis & Hpar & Hcl & Ht).
  destruct queue as [|[x y] queue]; simpl.
  - destruct Hfirst as [(_ & ?)|(e & -> & Hord)]; [done|]. simpl.
    rewrite app_nil_r in Hnd.
    assert (∀ c, reachable maze s c → c ∈ visited) as Hall.
    { intros c. apply closed_reachable.
      - apply Hvis. rewrite app_nil_r. by left.
      - intros u v Hu Hst. apply Hvis in Hu. rewrite app_nil_r in Hu. eauto. }
    split_and!; [done|done|]. right.
    assert (∀ c, reachable maze s c → c ∈ s :: e) as Hall'.
    { intros c Hc. apply Hall, Hvis in Hc. by rewrite app_nil_r in Hc. }
    split; [intros Hr; by apply Ht, Hall'|done].
  - set (c := (x, y)) in *.
    assert (c = s ∨ in_grid maze c) as Hcs.
    { destruct (Hpar c) as [?|(u & _ & Hst)]; [by left|by left|].
      right. by eapply step_in_grid. }
    assert (explored ++ c :: queue = (explored ++ [c]) ++ queue) as Hassoc
      by by rewrite <- app_assoc.
    rewrite Hassoc in Hnd.
    assert (∃ e, explored ++ [c] = s :: e ∧ expansion_order maze s e) as (e' & He' & Hord').
    { destruct Hfirst as [(-> & [= <- ->])|(e & -> & Hord)].
      - exists []. split; [done|apply expansion_order_nil].
      - exists (e ++ [c]). split; [done|].
        destruct (Hpar c) as [Hcs'|(u & Hu & Hst)]; [by left| |].
        + exfalso. apply NoDup_app in Hnd as [Hnd _]. rewrite Hcs' in Hnd.
          apply NoDup_cons in Hnd as [Hnd _]. apply Hnd.
          apply elem_of_app. right. by apply list_elem_of_singleton.
        + by eapply expansion_order_snoc. }
    destruct ((x =? ex) && (y =? ey)) eqn:Hgoal; simpl.
    + apply eqb_goal in Hgoal. assert (c = t) as Hct by exact Hgoal.
      apply NoDup_app in Hnd as [Hnd _]. rewrite He' in *. simpl.
      split_and!; [done|done|]. left.
      assert (c ∈ s :: e') as Hin.
      { rewrite <- He'. apply elem_of_app. right. by apply list_elem_of_singleton. }
      split; [rewrite <- Hct; by eapply expansion_order_reachable|].
      rewrite <- He', last_snoc. by rewrite <- Hct.
    + apply eqb_goal_false in Hgoal.
      set (explored' := explored ++ [c]) in *.
      set (P := λ (pre : list Direction) (st : list coord * gset coord),
           (∀ a, a ∈ st.2 ↔ a ∈ explored' ++ st.1) ∧
           NoDup (explored' ++ st.1) ∧
           (∀ v, v ∈ st.1 → v = s ∨ ∃ u, u ∈ explored' ∧ step maze u v) ∧
           (∀ d v, d ∈ pre → step_via maze c d v → v ∈ st.2) ∧
           visited ⊆ st.2 ∧
           (2 * remaining maze s st.2 + length st.1 ≤
            2 * remaining maze s visited + length queue)%nat).
      assert (P [] (queue, visited)) as HP0.
      { split_and!; simpl; [|done| | |done|lia].
        - intros a. by rewrite Hvis, Hassoc.
        - intros v Hv. destruct (Hpar v) as [?|(u & Hu & Hst)]; [by right|by left|].
          right. exists u. split; [|done]. apply elem_of_app. by left.
        - intros d v Hd. by apply elem_of_nil in Hd. }
      assert (∀ pre d st, P pre st → d ∈ directions →
        match bfsExplore_neighbor maze (grid_width maze) (maze_height maze) x y st d with
        | Ret st' => P (pre ++ [d]) st'
        | TypeError => has_hole maze s
        | OutOfFuel => False
        end) as Hstep.
      { intros pre d [q V] (HqV & Hqnd & Hqpar & Hnew & HV & Hmu) Hd.
        simpl in *. unfold bfsExplore_neighbor.
        pose proof (canStep_spec maze x y d) as Hcan.
        destruct (canStep _ _ _ _ _ _) as [[|]| |]; simpl; [| | |done].
        - set (v := (x + dx d, y + dy d)) in *.
          destruct (bool_decide (v ∉ V)) eqn:Hv.
          + apply bool_decide_eq_true in Hv. split_and!; simpl.
            * intros a. rewrite elem_of_union, elem_of_singleton, HqV, !elem_of_app,
                list_elem_of_singleton. tauto.
            * rewrite app_assoc. apply NoDup_app. split_and!; [done| |apply NoDup_singleton].
              intros a Ha Hin. apply list_elem_of_singleton in Hin as ->. by apply Hv, HqV.
            * intros v' Hv'. apply elem_of_app in Hv' as [Hv'|Hv']; [auto|].
              apply list_elem_of_singleton in Hv' as ->. right. exists c.
              split; [|by exists d]. apply elem_of_app. right. by apply list_elem_of_singleton.
            * intros d' v' Hd' Hst'. apply elem_of_app in Hd' as [Hd'|Hd'].
              -- apply elem_of_union. right. eauto.
              -- apply list_elem_of_singleton in Hd' as ->. destruct Hst' as [-> _].
                 apply elem_of_union. left. by apply elem_of_singleton.
            * set_solver.
            * rewrite length_app. simpl.
              assert (remaining maze s ({[v]} ∪ V) < remaining maze s V)%nat.
              { apply remaining_insert; [|done]. right. apply Hcan. }
              lia.
          + apply bool_decide_eq_false in Hv. apply dec_stable in Hv.
            split_and!; simpl; [done..| |done|done].
            intros d' v' Hd' Hst'. apply elem_of_app in Hd' as [Hd'|Hd']; [eauto|].
            apply list_elem_of_singleton in Hd' as ->. by destruct Hst' as [-> _].
        - split_and!; simpl; [done..| |done|done].
          intros d' v' Hd' Hst'. apply elem_of_app in Hd' as [Hd'|Hd']; [eauto|].
          apply list_elem_of_singleton in Hd' as ->. by apply Hcan in Hst'.
        - exists c. split; [done|apply Hcan]. }
      pose proof (for_each_inv _ P (has_hole maze s) _ _ HP0 Hstep) as Hfold.
      destruct (for_each _ _ _) as [[q' V']| |]; simpl; [|done..].
      destruct Hfold as (HqV & Hqnd & Hqpar & Hnew & HV & Hmu). simpl in *.
      split; [|unfold bfsExplore_mu; simpl; lia].
      split_and!; [|done|done|done| |].
      * right. exists e'. by split.
      * intros u v Hu Hst. apply elem_of_app in Hu as [Hu|Hu]; [apply HV; eauto|].
        apply list_elem_of_singleton in Hu as ->. destruct Hst as (d & Hd & Hst). eauto.
      * intros Hin. apply elem_of_app in Hin as [Hin|Hin]; [done|].
        apply list_elem_of_singleton in Hin. apply Hgoal. symmetry. exact Hin.
Qed.

Lemma bfsExplore_spec (maze : Maze) (sx sy ex ey : Z) :
  maze ≠ [] → explore_post maze (sx, sy) (ex, ey) (bfsExplore sx sy ex ey maze).
Proof.
  intros Hne. destruct maze as [|row maze]; [done|]. unfold bfsExplore.
  rewrite maze_width_cons. simpl.
  apply (while_loop_inv _ (bfsExplore_inv (row :: maze) (sx, sy) (ex, ey))
           (bfsExplore_mu (row :: maze) (sx, sy))).
  - intros st Hst. exact (bfsExplore_body_ok (row :: maze) (sx, sy) ex ey st Hst).
  - split_and!.
    + by left.
    + apply NoDup_singleton.
    + intros c. simpl. by rewrite elem_of_singleton, list_elem_of_singleton.
    + intros v Hv. apply list_elem_of_singleton in Hv. by left.
    + intros u v Hu. by apply elem_of_nil in Hu.
    + apply not_elem_of_nil.
  - unfold bfsExplore_mu. simpl.
    pose proof (remaining_bound (row :: maze) (sx, sy) {[(sx, sy)]}). lia.
Qed.

(** ** The loop of [astarExplore] *)

Lemma an_at_xy_true nx ny n : an_at_xy nx ny n = true ↔ an_coord n = (nx, ny).
Proof. apply eqb_goal. Qed.

Lemma an_at_xy_false nx ny n : an_at_xy nx ny n = false ↔ an_coord n ≠ (nx, ny).
Proof. apply eqb_goal_false. Qed.

Lemma set_g_coords nx ny g l : an_coord <$> set_g nx ny g l = an_coord <$> l.
Proof.
  induction l as [|n l IH]; simpl; [done|].
  destruct (an_at_xy nx ny n); [done|]. rewrite !fmap_cons. by rewrite IH.
Qed.

Lemma set_g_elem nx ny g l m :
  NoDup (an_coord <$> l) → m ∈ set_g nx ny g l →
  m = mkANode nx ny g ∨ (m ∈ l ∧ an_coord m ≠ (nx, ny)).
Proof.
  induction l as [|n l IH]; intros Hnd Hm; simpl in Hm; [by apply elem_of_nil in Hm|].
  rewrite fmap_cons in Hnd. apply NoDup_cons in Hnd as [Hn Hnd].
  destruct (an_at_xy nx ny n) eqn:Hat.
  - apply an_at_xy_true in Hat. apply elem_of_cons in Hm as [->|Hm].
    + left. injection Hat as -> ->. done.
    + right. split; [by right|]. intros Heq. apply Hn. rewrite Hat, <- Heq.
      by apply list_elem_of_fmap_2.
  - apply an_at_xy_false in Hat. apply elem_of_cons in Hm as [->|Hm].
    + right. split; [by left|done].
    + destruct (IH Hnd Hm) as [->|[? ?]]; [by left|]. right. split; [by right|done].
Qed.

Lemma find_an_at_xy_Some nx ny l m :
  find (an_at_xy nx ny) l = Some m → m ∈ l ∧ an_coord m = (nx, ny).
Proof.
  intros H. apply find_some in H as [Hin Hat]. split; [by apply list_elem_of_In|].
  by apply an_at_xy_true.
Qed.

Lemma find_an_at_xy_None nx ny l :
  find (an_at_xy nx ny) l = None → (nx, ny) ∉ an_coord <$> l.
Proof.
  intros H Hin. apply list_elem_of_fmap in Hin as (m & Hm & Hin).
  apply list_elem_of_In in Hin. pose proof (find_none _ _ H m Hin) as Hat.
  apply an_at_xy_false in Hat. congruence.
Qed.

Lemma remaining_le_cells (maze : Maze) (s : coord) (V : gset coord) :
  (remaining maze s V ≤ cell_count maze)%nat.
Proof. pose proof (remaining_bound maze s V). unfold loop_bound, cell_count in *. lia. Qed.

Lemma came_ok_nonneg maze s C gs cf k g : came_ok maze s C gs cf k g → 0 ≤ g.
Proof. intros [[_ ->]|(_ & ? & _)]; lia. Qed.

Lemma came_ok_in_grid maze s C gs cf k g : came_ok maze s C gs cf k g → k = s ∨ in_grid maze k.
Proof. intros [[-> _]|(_ & _ & u & _ & _ & Hst & _)]; [by left|right; by eapply step_in_grid]. Qed.

Lemma astarExplore_frontier (maze : Maze) (s t : coord) (st : AStarExploreState)
    (c : coord) (q : list coord) :
  astarExplore_inv maze s t st →
  is_path maze s c q → c ∉ as_inClosed st →
  ∃ m q2, m ∈ as_openSet st ∧ is_path maze (an_coord m) c q2 ∧
          an_g m + Z.of_nat (length q2) ≤ Z.of_nat (length q).
Proof.
  intros (Hnodes & Hnd & Hgs & Hopt & Hcl & Hs & _) Hq Hc.
  destruct (decide (s ∈ as_inClosed st)) as [Hsc|Hsc].
  - destruct (path_exit maze (as_inClosed st) s c q Hsc Hc Hq)
      as (p1 & u & v & p2 & -> & Hp1 & Hu & Hv & Hst & Hp2).
    destruct (Hopt u Hu) as (gu & Hgu & Hgopt). specialize (Hgopt p1 Hp1).
    destruct (Hcl u v Hu Hst) as [?|(Hvo & gu' & gv & Hgu' & Hgv & Hle)]; [done|].
    apply list_elem_of_fmap in Hvo as (m & Hm & Hmo).
    eapply Forall_forall in Hnodes as (_ & Hgm); [|exact Hmo].
    exists m, p2. rewrite <- Hm. split_and!; [done..|].
    rewrite length_app. simpl. rewrite <- Hm in Hgm.
    assert (gu' = gu) as -> by congruence.
    assert (gv = an_g m) as -> by congruence. lia.
  - destruct Hs as [?|[Hso _]]; [done|].
    destruct (as_openSet st) as [|m [|m' l]]; try done. injection Hso as Hm.
    apply Forall_singleton in Hnodes as (_ & Hgm).
    exists m, q. rewrite Hm. split_and!; [by apply list_elem_of_singleton|done|].
    rewrite Hm in Hgm. destruct (Hgs s _ Hgm) as ([[_ ->]|(? & _)] & _); [lia|done].
Qed.

Lemma walk_back_spec (maze : Maze) (s : coord) (C : gset coord) (gs : gmap coord Z)
    (cf : gmap coord coord) (fuel : nat) (k : coord) (g : Z) (acc : list coord) :
  (∀ k g, gs !! k = Some g → came_ok maze s C gs cf k g) →
  gs !! k = Some g → (Z.to_nat g ≤ fuel)%nat →
  ∃ p, walk_back fuel cf s (Some k) acc = Ret (acc ++ reverse p) ∧
       is_path maze s k p ∧ Z.of_nat (length p) = g.
Proof.
  intros Hok. revert k g acc. induction fuel as [|fuel IH]; intros k g acc Hk Hg.
  - destruct (Hok k g Hk) as [[-> ->]|(Hne & Hge & _)]; [|lia].
    exists []. simpl. rewrite decide_True by done. rewrite app_nil_r.
    split_and!; [done|apply is_path_nil|done].
  - destruct (Hok k g Hk) as [[-> ->]|(Hne & Hge & u & Hcf & _ & Hst & Hgu)].
    + exists []. simpl. rewrite decide_True by done. rewrite app_nil_r.
      split_and!; [done|apply is_path_nil|done].
    + simpl. rewrite decide_False by done. rewrite Hcf.
      destruct (IH u (g - 1) (acc ++ [k]) Hgu) as (p & Hw & Hp & Hlen); [lia|].
      exists (p ++ [k]). split_and!.
      * rewrite Hw, reverse_app, <- app_assoc. done.
      * by eapply is_path_snoc.
      * rewrite length_app. simpl. lia.
Qed.

Lemma astarExplore_body_ok (maze : Maze) (s : coord) (ex ey : Z) (st : AStarExploreState) :
  let t := (ex, ey) in
  astarExplore_inv maze s t st →
  match astarExplore_body s.1 s.2 ex ey maze (grid_width maze) (maze_height maze) st with
  | Ret (Continue st') =>
      astarExplore_inv maze s t st' ∧
      (remaining maze s (as_inClosed st') < remaining maze s (as_inClosed st))%nat
  | Ret (Done st') => astarExplore_final maze s t st'
  | TypeError => has_hole maze s
  | OutOfFuel => False
  end.
Proof.
  intros t Hinv.
  pose proof Hinv as (Hnodes & Hnd & Hgs & Hopt & Hcl & Hs & Hend & Hord & Hce & Hec & Ht).
  destruct st as [openSet closed expl gScore cameFrom]. simpl in *.
  unfold astarExplore_body. rewrite sort_by_match. simpl.
  set (cmp := λ a b, f_explore ex ey a ?= f_explore ex ey b).
  destruct (sort_by cmp openSet) as [|current rest] eqn:Hsort.
  - apply sort_by_nil in Hsort as ->.
    destruct Hs as [Hs|[? _]]; [|done].
    assert (∀ c, reachable maze s c → c ∈ closed) as Hall.
    { intros c. apply closed_reachable; [done|]. intros u v Hu Hst.
      destruct (Hcl u v Hu Hst) as [?|[Hv _]]; [done|by apply elem_of_nil in Hv]. }
    split_and!; simpl; [done|done| |].
    + intros k g Hk. destruct (Hgs k g Hk) as (? & _ & Hb). split; [done|lia].
    + right. split_and!; [intros Hr; by apply Ht, Hall| |auto].
      destruct (gScore !! t) as [g|] eqn:Hgt; [|done].
      destruct (Hgs t g Hgt) as (_ & [?|Hin] & _); [done|by apply elem_of_nil in Hin].
  - destruct (sort_by_head_min cmp (f_explore ex ey) openSet current rest) as [Hperm Hmin];
      [done|done|].
    fold (an_coord current). set (c := an_coord current) in *.
    assert (∀ v, v ∈ an_coord <$> openSet ↔ v = c ∨ v ∈ an_coord <$> rest) as Hopen.
    { intros v. rewrite <- Hperm, fmap_cons. apply elem_of_cons. }
    assert (s ∈ closed ∨ (c = s ∧ rest = [] ∧ expl = [])) as Hs'.
    { destruct Hs as [?|[Hop ->]]; [by left|right].
      destruct openSet as [|m [|m' l]]; try done. injection Hop as Hm.
      apply Permutation_singleton_r in Hperm. injection Hperm as -> ->. done. }
    rewrite <- Hperm in Hnodes, Hnd. rewrite fmap_cons in Hnd.
    apply NoDup_cons in Hnd as [Hcrest Hnd].
    apply Forall_cons in Hnodes as [[Hc Hgc] Hnodes].
    fold c in Hcrest, Hc, Hgc. set (gc := an_g current) in *.
    rewrite decide_False by done.
    destruct (Hgs c gc Hgc) as (Hcame & _ & Hbound).
    pose proof (came_ok_nonneg _ _ _ _ _ _ _ Hcame) as Hgc0.
    pose proof (came_ok_in_grid _ _ _ _ _ _ _ Hcame) as Hcs.
    assert (∀ q, is_path maze s c q → gc ≤ Z.of_nat (length q)) as Hgopt.
    { intros q Hq.
      destruct (astarExplore_frontier maze s t _ c q Hinv Hq Hc) as (m & q2 & Hm & Hq2 & Hle).
      simpl in Hm. pose proof (Hmin m Hm) as Hkey. unfold f_explore in Hkey.
      pose proof (heuristic_path maze (an_coord m) c q2 ex ey Hq2) as Hh. simpl in Hh.
      fold gc in Hkey. lia. }
    set (closed' := {[ c ]} ∪ closed).
    set (expl' := if negb (an_x current =? s.1) || negb (an_y current =? s.2)
                  then expl ++ [c] else expl).
    assert (c ∈ closed') as Hcc by (apply elem_of_union; left; by apply elem_of_singleton).
    assert (closed ⊆ closed') as Hsub by (intros a Ha; apply elem_of_union; by right).
    assert (remaining maze s closed' < remaining maze s closed)%nat as Hrem.
    { by apply remaining_insert. }
    assert (s ∈ closed') as Hsc'.
    { destruct Hs' as [?|(<- & _)]; [by apply Hsub|done]. }
    assert (NoDup (s :: expl') ∧ expansion_order maze s expl' ∧
            (∀ a, a ∈ closed' → a ∈ s :: expl') ∧ (∀ a, a ∈ expl' → a ∈ closed') ∧
            last (s :: expl') = Some c) as (Hend' & Hord' & Hce' & Hec' & Hlast').
    { unfold expl'. destruct (decide (c = s)) as [Hcs'|Hcs'].
      - assert (negb (an_x current =? s.1) || negb (an_y current =? s.2) = false) as ->.
        { rewrite <- Hcs'. simpl. by rewrite !Z.eqb_refl. }
        split_and!; [done|done| |auto|].
        + intros a Ha. apply elem_of_union in Ha as [Ha|Ha]; [|auto].
          apply elem_of_singleton in Ha as ->. rewrite Hcs'. by left.
        + destruct Hs' as [Hsc|(_ & _ & ->)]; [by rewrite <- Hcs' in Hsc|]. by rewrite Hcs'.
      - assert (negb (an_x current =? s.1) || negb (an_y current =? s.2) = true) as ->.
        { destruct (negb _ || negb _) eqn:Hb; [done|]. exfalso. apply Hcs'.
          apply orb_false_iff in Hb as [Hx Hy]. apply negb_false_iff, Z.eqb_eq in Hx, Hy.
          unfold c, an_coord. rewrite Hx, Hy. by destruct s. }
        split_and!.
        + rewrite app_comm_cons. apply NoDup_app. split_and!; [done| |apply NoDup_singleton].
          intros a Ha Hin. apply list_elem_of_singleton in Hin as ->.
          apply elem_of_cons in Ha as [?|Ha]; [done|]. by apply Hc, Hec.
        + destruct Hcame as [[? _]|(_ & _ & u & _ & Hu & Hst & _)]; [done|].
          eapply expansion_order_snoc; [done| |done]. auto.
        + intros a Ha. rewrite app_comm_cons. apply elem_of_app.
          apply elem_of_union in Ha as [Ha|Ha]; [|left; auto].
          right. apply elem_of_singleton in Ha as ->. by apply list_elem_of_singleton.
        + intros a Ha. apply elem_of_app in Ha as [Ha|Ha]; [by apply Hsub, Hec|].
          by apply list_elem_of_singleton in Ha as ->.
        + by rewrite app_comm_cons, last_snoc. }
    assert (∀ k g, gScore !! k = Some g →
              came_ok maze s closed' gScore cameFrom k g ∧
              (k ∈ closed' ∨ k ∈ an_coord <$> rest) ∧
              (Z.to_nat g + remaining maze s closed' ≤ cell_count maze)%nat) as Hgs'.
    { intros k g Hk. destruct (Hgs k g Hk) as (Hck & Hkin & Hb). split_and!; [| |lia].
      - destruct Hck as [?|(? & ? & u & ? & ? & ? & ?)]; [by left|right].
        split_and!; [done..|]. exists u. split_and!; [done| |done..]. by apply Hsub.
      - destruct Hkin as [?|Hkin]; [left; by apply Hsub|].
        apply Hopen in Hkin as [->|?]; [by left|by right]. }
    destruct ((an_x current =? ex) && (an_y current =? ey)) eqn:Hgoal.
    + apply eqb_goal in Hgoal. assert (c = t) as Hct by exact Hgoal.
      split_and!; simpl; [done|done| |].
      * intros k g Hk. destruct (Hgs' k g Hk) as (? & _ & ?). split; [done|lia].
      * left. rewrite <- Hct. split; [done|]. by exists gc.
    + apply eqb_goal_false in Hgoal.
      set (P := λ (pre : list Direction) (st : AStarExploreState),
           as_inClosed st = closed' ∧ as_explored st = expl' ∧
           Forall (anode_ok closed' (as_gScore st)) (as_openSet st) ∧
           NoDup (an_coord <$> as_openSet st) ∧
           (∀ v, v ∈ an_coord <$> rest → v ∈ an_coord <$> as_openSet st) ∧
           (∀ k, k ∈ closed' → as_gScore st !! k = gScore !! k) ∧
           (∀ k z, k ∈ an_coord <$> rest → gScore !! k = Some z →
              ∃ z', as_gScore st !! k = Some z' ∧ z' ≤ z) ∧
           (∀ k g, as_gScore st !! k = Some g →
              came_ok maze s closed' (as_gScore st) (as_cameFrom st) k g ∧
              (k ∈ closed' ∨ k ∈ an_coord <$> as_openSet st) ∧
              (Z.to_nat g + remaining maze s closed' ≤ cell_count maze)%nat) ∧
           (∀ d v, d ∈ pre → step_via maze c d v →
              v ∈ closed' ∨
              (v ∈ an_coord <$> as_openSet st ∧
               ∃ gv, as_gScore st !! v = Some gv ∧ gv ≤ gc + 1))).
      assert (P [] (mkAState rest closed' expl' gScore cameFrom)) as HP0.
      { split_and!; simpl; [done|done| |done|done|done|eauto with lia|done|].
        - apply Forall_forall. intros n Hn.
          eapply Forall_forall in Hnodes as [Hn1 Hn2]; [|exact Hn]. split; [|done].
          intros Hin. apply elem_of_union in Hin as [Hin|Hin]; [|done].
          apply elem_of_singleton in Hin. apply Hcrest. rewrite <- Hin.
          by apply list_elem_of_fmap_2.
        - intros d v Hd. by apply elem_of_nil in Hd. }
      assert (∀ pre d st, P pre st → d ∈ directions →
        match astarExplore_neighbor maze (grid_width maze) (maze_height maze) current st d with
        | Ret st' => P (pre ++ [d]) st'
        | TypeError => has_hole maze s
        | OutOfFuel => False
        end) as Hstep.
      { intros pre d [op cl expl0 g cf]
          (Hcl0 & Hex0 & Hop & Hopnd & Hmono & Hclg & Hdec & Hgok & Hnew) Hd.
        simpl in *. subst cl expl0. unfold astarExplore_neighbor. simpl.
        pose proof (canStep_spec maze (an_x current) (an_y current) d) as Hcan.
        destruct (canStep _ _ _ _ _ _) as [[|]| |]; simpl; [| | |done].
        - set (v := (an_x current + dx d, an_y current + dy d)) in *.
          assert (∀ (op' : list AStarExploreSearchNode) (g' : gmap coord Z),
            (∀ d' v', d' ∈ pre → step_via maze c d' v' →
               v' ∈ closed' ∨
               (v' ∈ an_coord <$> op' ∧ ∃ gv, g' !! v' = Some gv ∧ gv ≤ gc + 1)) →
            (v ∈ closed' ∨
             (v ∈ an_coord <$> op' ∧ ∃ gv, g' !! v = Some gv ∧ gv ≤ gc + 1)) →
            ∀ d' v', d' ∈ pre ++ [d] → step_via maze c d' v' →
               v' ∈ closed' ∨
               (v' ∈ an_coord <$> op' ∧ ∃ gv, g' !! v' = Some gv ∧ gv ≤ gc + 1))
            as Hext.
          { intros op' g' Hold Hv d' v' Hd' Hst'.
            apply elem_of_app in Hd' as [Hd'|Hd']; [eauto|].
            apply list_elem_of_singleton in Hd' as ->. by destruct Hst' as [-> _]. }
          destruct (bool_decide (v ∈ closed')) eqn:Hv.
          { apply bool_decide_eq_true in Hv.
            split_and!; simpl; [done..|]. apply Hext; [done|by left]. }
          apply bool_decide_eq_false in Hv.
          assert (v ≠ s) as Hvs by (intros ->; done).
          assert (v ≠ c) as Hvc by (intros Heq; by rewrite Heq in Hv).
          unfold improves. fold gc.
          assert (g !! c = Some gc) as Hgc' by (by rewrite Hclg).
          set (g' := <[v := gc + 1]> g). set (cf' := <[v := c]> cf).
          assert (∀ k z, g' !! k = Some z →
                    came_ok maze s closed' g' cf' k z ∧
                    (Z.to_nat z + remaining maze s closed' ≤ cell_count maze)%nat ∧
                    (k = v ∨ k ∈ closed' ∨ k ∈ an_coord <$> op)) as Hgok'.
          { intros k z Hk. unfold g' in Hk. destruct (decide (v = k)) as [<-|Hne].
            - rewrite lookup_insert_eq in Hk. injection Hk as <-. split_and!; [|lia|by left].
              right. split_and!; [done|lia|]. exists c. unfold cf', g'.
              rewrite lookup_insert_eq. split_and!; [done|done|by exists d|].
              rewrite lookup_insert_ne by done. rewrite Hgc'. f_equal. lia.
            - rewrite lookup_insert_ne in Hk by done.
              destruct (Hgok k z Hk) as (Hck & Hkin & Hb). split_and!; [|done|by right].
              destruct Hck as [?|(? & ? & u & ? & Hu & ? & ?)]; [by left|right].
              split_and!; [done..|]. exists u. unfold cf', g'.
              rewrite !lookup_insert_ne; [done| |done]. intros <-. done. }
          subst g' cf'.
          destruct (g !! v) as [gv|] eqn:Hgv.
          + destruct (Hgok v gv Hgv) as (_ & [?|Hvop] & _); [done|].
            destruct (gc + 1 <? gv) eqn:Hlt.
            * apply Z.ltb_lt in Hlt.
              destruct (find (an_at_xy _ _) op) as [m|] eqn:Hfind.
              -- split_and!; simpl; [done|done| | | | | | |].
                 ++ apply Forall_forall. intros m' Hm'.
                    apply set_g_elem in Hm' as [->|[Hm' Hne]]; [| |done].
                    ** split; [done|]. apply lookup_insert_eq.
                    ** eapply Forall_forall in Hop as [? ?]; [|exact Hm']. split; [done|].
                       by rewrite lookup_insert_ne.
                 ++ by rewrite set_g_coords.
                 ++ rewrite set_g_coords. done.
                 ++ intros k Hk. rewrite lookup_insert_ne; [auto|]. by intros <-.
                 ++ intros k z Hk Hz. destruct (Hdec k z Hk Hz) as (z' & Hz' & Hle).
                    destruct (decide (v = k)) as [<-|Hne].
                    ** rewrite lookup_insert_eq. eexists. split; [done|].
                       assert (z' = gv) by congruence. lia.
                    ** rewrite lookup_insert_ne by done. eauto.
                 ++ intros k z Hk. destruct (Hgok' k z Hk) as (? & ? & Hkin).
                    split_and!; [done| |done]. rewrite set_g_coords.
                    destruct Hkin as [->|?]; [by right|done].
                 ++ apply Hext.
                    ** intros d' v' Hd' Hst'. rewrite set_g_coords.
                       destruct (Hnew d' v' Hd' Hst') as [?|(? & gv' & Hgv' & Hle)];
                         [by left|right].
                       split; [done|]. destruct (decide (v = v')) as [<-|Hne].
                       --- rewrite lookup_insert_eq. eexists. split; [done|lia].
                       --- rewrite lookup_insert_ne by done. eauto.
                    ** right. rewrite set_g_coords. split; [done|].
                       rewrite lookup_insert_eq. eexists. split; [done|lia].
              -- apply find_an_at_xy_None in Hfind. done.
            * apply Z.ltb_ge in Hlt. split_and!; simpl; [done..|].
              apply Hext; [done|]. right. split; [done|]. eauto.
          + assert (v ∉ an_coord <$> op) as Hvop.
            { intros Hin. apply list_elem_of_fmap in Hin as (m & Hm & Hin).
              eapply Forall_forall in Hop as [_ Hgm]; [|exact Hin]. congruence. }
            destruct (find (an_at_xy _ _) op) as [m|] eqn:Hfind.
            { apply find_an_at_xy_Some in Hfind as [Hm Hmv]. exfalso. apply Hvop.
              fold v in Hmv. rewrite <- Hmv. by apply list_elem_of_fmap_2. }
            split_and!; simpl; [done|done| | | | | | |].
            * apply Forall_app. split.
              -- apply Forall_forall. intros m' Hm'.
                 eapply Forall_forall in Hop as [? ?]; [|exact Hm']. split; [done|].
                 rewrite lookup_insert_ne; [done|]. intros Heq. apply Hvop. rewrite Heq.
                 by apply list_elem_of_fmap_2.
              -- apply Forall_singleton. split; [done|]. apply lookup_insert_eq.
            * rewrite fmap_app. apply NoDup_app. split_and!; [done| |apply NoDup_singleton].
              intros k Hk Hin. apply list_elem_of_singleton in Hin. simpl in Hin.
              by rewrite Hin in Hk.
            * intros k Hk. rewrite fmap_app. apply elem_of_app. left. auto.
            * intros k Hk. rewrite lookup_insert_ne; [auto|]. by intros <-.
            * intros k z Hk Hz. rewrite lookup_insert_ne; [eauto|].
              intros <-. apply Hvop. auto.
            * intros k z Hk. destruct (Hgok' k z Hk) as (? & ? & Hkin).
              split_and!; [done| |done]. rewrite fmap_app.
              destruct Hkin as [->|[?|?]]; [right|by left|right].
              -- apply elem_of_app. right. by apply list_elem_of_singleton.
              -- apply elem_of_app. by left.
            * apply Hext.
              -- intros d' v' Hd' Hst'. rewrite fmap_app.
                 destruct (Hnew d' v' Hd' Hst') as [?|(? & gv' & Hgv' & Hle)]; [by left|right].
                 split; [apply elem_of_app; by left|].
                 rewrite lookup_insert_ne; [eauto|]. by intros <-.
              -- right. rewrite fmap_app. split.
                 ++ apply elem_of_app. right. by apply list_elem_of_singleton.
                 ++ rewrite lookup_insert_eq. eexists. split; [done|lia].
        - split_and!; simpl; [done..|].
          intros d' v' Hd' Hst'. apply elem_of_app in Hd' as [Hd'|Hd']; [eauto|].
          apply list_elem_of_singleton in Hd' as ->. by apply Hcan in Hst'.
        - exists c. split; [done|apply Hcan]. }
      pose proof (for_each_inv _ P (has_hole maze s) _ _ HP0 Hstep) as Hfold.
      destruct (for_each _ _ _) as [[op cl expl0 g cf]| |]; simpl; [|done..].
      destruct Hfold as (Hcl0 & Hex0 & Hop & Hopnd & Hmono & Hclg & Hdec & Hgok & Hnew).
      simpl in *. subst cl expl0. split; [|done].
      split_and!; simpl; [done|done|done| | |by left|done|done|done|done|].
      * intros k Hk. rewrite Hclg by done. apply elem_of_union in Hk as [Hk|Hk]; [|auto].
        apply elem_of_singleton in Hk as ->. eauto.
      * intros u v Hu Hst. apply elem_of_union in Hu as [Hu|Hu].
        -- apply elem_of_singleton in Hu as ->. destruct Hst as (d & Hd & Hst).
           destruct (Hnew d v Hd Hst) as [?|(? & gv & Hgv & Hle)]; [by left|right].
           split; [done|]. exists gc, gv. split_and!; [|done..]. by rewrite Hclg.
        -- destruct (Hcl u v Hu Hst) as [Hv|(Hv & gu & gv & Hgu & Hgv & Hle)].
           { left. by apply Hsub. }
           apply Hopen in Hv as [->|Hv]; [by left|]. right. split; [auto|].
           destruct (Hdec v gv Hv Hgv) as (z' & Hz' & Hle').
           exists gu, z'. split_and!; [|done|lia]. rewrite Hclg; [done|by apply Hsub].
      * intros Hin. apply elem_of_union in Hin as [Hin|Hin]; [|done].
        apply elem_of_singleton in Hin. apply Hgoal. symmetry. exact Hin.
Qed.

Lemma cell_count_le_bound (maze : Maze) : (cell_count maze ≤ loop_bound maze)%nat.
Proof. unfold cell_count, loop_bound. lia. Qed.

Lemma astarExplore_spec (maze : Maze) (sx sy ex ey : Z) :
  maze ≠ [] → astarExplore_post maze (sx, sy) (ex, ey) (astarExplore sx sy ex ey maze).
Proof.
  intros Hne. destruct maze as [|row maze]; [done|]. unfold astarExplore.
  rewrite maze_width_cons. simpl.
  set (s := (sx, sy)). set (t := (ex, ey)). set (mz := row :: maze).
  set (init := mkAState [mkANode sx sy 0] ∅ [] {[s := 0]} ∅).
  assert (astarExplore_inv mz s t init) as Hinit.
  { split_and!; simpl.
    - apply Forall_singleton. split; [apply not_elem_of_empty|].
      apply lookup_singleton_eq.
    - apply NoDup_singleton.
    - intros k g Hk. apply lookup_singleton_Some in Hk as [<- <-]. split_and!.
      + by left.
      + right. by apply list_elem_of_singleton.
      + simpl. apply remaining_le_cells.
    - intros c Hc. by apply not_elem_of_empty in Hc.
    - intros u v Hu. by apply not_elem_of_empty in Hu.
    - by right.
    - apply NoDup_singleton.
    - apply expansion_order_nil.
    - intros c Hc. by apply not_elem_of_empty in Hc.
    - intros c Hc. by apply elem_of_nil in Hc.
    - apply not_elem_of_empty. }
  pose proof (while_loop_inv
    (astarExplore_body sx sy ex ey mz (grid_width mz) (maze_height mz))
    (astarExplore_inv mz s t) (λ st, remaining mz s (as_inClosed st))
    (astarExplore_loop_post mz s t)
    (λ st Hst, astarExplore_body_ok mz s ex ey st Hst) (loop_bound mz) init Hinit) as Hloop.
  destruct (while_loop _ _ _) as [st| |]; simpl in *.
  - destruct Hloop as (Hnd & Hord & Hgs & Hfin).
    { pose proof (remaining_bound mz s ∅). lia. }
    assert (∀ p, explore_post mz s t (Ret (as_explored st)) ∧
                 (shortest_path mz s t p ∨ (p = [] ∧ ¬ reachable mz s t)) →
                 astarExplore_post mz s t (Ret (mkAResult (as_explored st) p))) as Hres.
    { intros p Hp. exact Hp. }
    destruct (decide (is_Some (as_gScore st !! t))) as [[g Hg]|Hnone]; simpl.
    + destruct (Hgs t g Hg) as [_ Hb].
      destruct (walk_back_spec mz s (as_inClosed st) (as_gScore st) (as_cameFrom st)
                  (loop_bound mz) t g []) as (p & Hw & Hp & Hlen).
      { intros k z Hk. by apply Hgs. }
      { done. }
      { pose proof (cell_count_le_bound mz). lia. }
      rewrite Hw. simpl. rewrite reverse_involutive.
      destruct Hfin as [(Hlast & g' & Hg' & Hopt)|(Hnr & Hnone & _)]; [|congruence].
      assert (g' = g) as -> by congruence.
      split; simpl.
      * split_and!; [done|done|]. left. split; [by exists p|done].
      * left. split; [done|]. intros q Hq. apply Hopt in Hq. lia.
    + destruct Hfin as [(Hlast & g' & Hg' & Hopt)|(Hnr & _ & Hall)].
      { exfalso. apply Hnone. by exists g'. }
      split; simpl; [|by right]. split_and!; [done|done|]. by right.
  - apply Hloop. pose proof (remaining_bound mz s ∅). lia.
  - apply Hloop. pose proof (remaining_bound mz s ∅). lia.
Qed.

(** ** A start whose neighbours cannot be tested *)

Lemma cellAt_outside maze c : rectangular maze → ¬ in_grid maze c → cellAt maze c = None.
Proof.
  intros Hrect Hout. unfold cellAt. destruct (index maze c.2) as [row|] eqn:Hrow; [|done].
  simpl. unfold index in *. case_decide as Hy; [|done].
  apply list_elem_of_lookup_2 in Hrow as Hin. apply lookup_lt_Some in Hrow.
  unfold rectangular in Hrect. rewrite Forall_forall in Hrect. specialize (Hrect row Hin).
  case_decide as Hx; [|done]. apply lookup_ge_None. rewrite Hrect.
  unfold in_grid, grid_width, maze_height in Hout. lia.
Qed.

Lemma blocked_outside maze x y :
  rectangular maze → ¬ in_grid maze (x, y) →
  blocked maze (grid_width maze) (maze_height maze) x y.
Proof.
  intros Hrect Hout d. unfold canStep. destruct (inBounds _ _ _ _); [|done].
  by rewrite wallAt_cellAt, (cellAt_outside maze (x, y)).
Qed.

Lemma blocked_zero_width maze H x y : blocked maze 0 H x y.
Proof.
  intros d. unfold canStep, inBounds.
  destruct (0 <=? x + dx d) eqn:H1; simpl; [|done].
  assert ((x + dx d <? 0) = false) as -> by (apply Z.ltb_ge; lia). done.
Qed.

Lemma no_entry_zero_width H x y : no_entry 0 H x y = true.
Proof.
  unfold no_entry. apply forallb_forall. intros d _. unfold inBounds.
  destruct (0 <=? x + dx d) eqn:H1; simpl; [|done].
  assert ((x + dx d <? 0) = false) as -> by (apply Z.ltb_ge; lia). done.
Qed.

Lemma no_entry_spec maze x y :
  no_entry (grid_width maze) (maze_height maze) x y = true ↔
  ∀ d, d ∈ directions → ¬ in_grid maze (move (x, y) d).
Proof.
  unfold no_entry. rewrite forallb_forall. split.
  - intros Hall d Hd Hin. apply list_elem_of_In, Hall in Hd.
    apply inBounds_in_grid in Hin. simpl in Hin. by rewrite Hin in Hd.
  - intros Hall d Hd. apply list_elem_of_In, Hall in Hd.
    destruct (inBounds _ _ _ _) eqn:Hb; [|done].
    exfalso. apply Hd. by apply (inBounds_in_grid maze (x + dx d, y + dy d)).
Qed.

Lemma forallb_reverse_directions (g : Direction → bool) :
  forallb g (reverse directions) = forallb g directions.
Proof.
  unfold directions. cbn. repeat match goal with |- context [g ?d] => destruct (g d) end; done.
Qed.

Section blocked.
Context {S : Type} (f : S → Direction → outcome S).
Context (maze : Maze) (W H x y : Z).
Hypothesis Hblocked : blocked maze W H x y.
Hypothesis f_false : ∀ st d, canStep maze W H x y d = Ret false → f st d = Ret st.
Hypothesis f_error : ∀ st d, canStep maze W H x y d = TypeError → f st d = TypeError.

Lemma for_each_blocked l st :
  for_each f l st =
  if forallb (λ d, negb (inBounds W H (x + dx d) (y + dy d))) l then Ret st else TypeError.
Proof.
  induction l as [|d l IH]; [done|]. unfold for_each. fold (for_each f l). simpl.
  pose proof (Hblocked d) as Hd. destruct (inBounds _ _ _ _); simpl.
  - by rewrite f_error.
  - rewrite f_false by done. simpl. apply IH.
Qed.
End blocked.

Lemma while_loop_S {S R} fuel (body : S → outcome (step_result S R)) s :
  while_loop (Datatypes.S fuel) body s =
  match body s with
  | Ret (Continue s') => while_loop fuel body s'
  | Ret (Done r) => Ret r
  | TypeError => TypeError
  | OutOfFuel => OutOfFuel
  end.
Proof. done. Qed.

Lemma loop_bound_SS maze : ∃ n, loop_bound maze = Datatypes.S (Datatypes.S n).
Proof. unfold loop_bound. eexists. rewrite Nat.add_comm. simpl. done. Qed.

Lemma dfs_blocked maze sx sy ex ey :
  maze ≠ [] → blocked maze (grid_width maze) (maze_height maze) sx sy →
  dfs sx sy ex ey maze =
  blocked_result (grid_width maze) (maze_height maze) sx sy ex ey [].
Proof.
  intros Hne Hb. destruct maze as [|row maze]; [done|]. unfold dfs, blocked_result.
  rewrite maze_width_cons. destruct (loop_bound_SS (row :: maze)) as [n ->].
  cbn [mbind outcome_mbind outcome_bind]. rewrite while_loop_S. unfold dfs_body at 1.
  cbn [sn_x sn_y sn_path]. rewrite decide_False by apply not_elem_of_empty.
  destruct ((sx =? ex) && (sy =? ey)); [done|].
  rewrite (for_each_blocked _ _ _ _ _ _ Hb).
  - rewrite forallb_reverse_directions. fold (no_entry (grid_width (row :: maze))
      (maze_height (row :: maze)) sx sy). destruct (no_entry _ _ _ _); [|done].
    cbn [mbind outcome_mbind outcome_bind]. by rewrite while_loop_S.
  - intros st d Hd. unfold dfs_neighbor. by rewrite Hd.
  - intros st d Hd. unfold dfs_neighbor. by rewrite Hd.
Qed.

Lemma bfs_blocked maze sx sy ex ey :
  maze ≠ [] → blocked maze (grid_width maze) (maze_height maze) sx sy →
  bfs sx sy ex ey maze =
  blocked_result (grid_width maze) (maze_height maze) sx sy ex ey [].
Proof.
  intros Hne Hb. destruct maze as [|row maze]; [done|]. unfold bfs, blocked_result.
  rewrite maze_width_cons. destruct (loop_bound_SS (row :: maze)) as [n ->].
  cbn [mbind outcome_mbind outcome_bind]. rewrite while_loop_S. unfold bfs_body at 1.
  cbn [sn_x sn_y sn_path].
  destruct ((sx =? ex) && (sy =? ey)); [done|].
  rewrite (for_each_blocked _ _ _ _ _ _ Hb).
  - fold (no_entry (grid_width (row :: maze)) (maze_height (row :: maze)) sx sy).
    destruct (no_entry _ _ _ _); [|done].
    cbn [mbind outcome_mbind outcome_bind]. by rewrite while_loop_S.
  - intros [q V] d Hd. unfold bfs_neighbor. by rewrite Hd.
  - intros [q V] d Hd. unfold bfs_neighbor. by rewrite Hd.
Qed.

Lemma astar_blocked maze sx sy ex ey :
  maze ≠ [] → blocked maze (grid_width maze) (maze_height maze) sx sy →
  astar sx sy ex ey maze =
  blocked_result (grid_width maze) (maze_height maze) sx sy ex ey [].
Proof.
  intros Hne Hb. destruct maze as [|row maze]; [done|]. unfold astar, blocked_result.
  rewrite maze_width_cons. destruct (loop_bound_SS (row :: maze)) as [n ->].
  cbn [mbind outcome_mbind outcome_bind]. rewrite while_loop_S. unfold astar_body at 1.
  cbn [sort_by foldr insert_by sn_x sn_y sn_path].
  destruct ((sx =? ex) && (sy =? ey)); [done|].
  rewrite (for_each_blocked _ _ _ _ _ _ Hb).
  - fold (no_entry (grid_width (row :: maze)) (maze_height (row :: maze)) sx sy).
    destruct (no_entry _ _ _ _); [|done].
    cbn [mbind outcome_mbind outcome_bind]. by rewrite while_loop_S.
  - intros [q V] d Hd. unfold astar_neighbor. by rewrite Hd.
  - intros [q V] d Hd. unfold astar_neighbor. by rewrite Hd.
Qed.

Lemma dfsExplore_blocked maze sx sy ex ey :
  maze ≠ [] → blocked maze (grid_width maze) (maze_height maze) sx sy →
  dfsExplore sx sy ex ey maze =
  blocked_result (grid_width maze) (maze_height maze) sx sy ex ey [].
Proof.
  intros Hne Hb. destruct maze as [|row maze]; [done|]. unfold dfsExplore, blocked_result.
  rewrite maze_width_cons. destruct (loop_bound_SS (row :: maze)) as [n ->].
  cbn [mbind outcome_mbind outcome_bind]. rewrite while_loop_S. unfold dfsExplore_body at 1.
  rewrite decide_False by apply not_elem_of_empty.
  destruct ((sx =? ex) && (sy =? ey)); [done|].
  rewrite (for_each_blocked _ _ _ _ _ _ Hb).
  - rewrite forallb_reverse_directions. fold (no_entry (grid_width (row :: maze))
      (maze_height (row :: maze)) sx sy). destruct (no_entry _ _ _ _); [|done].
    cbn [mbind outcome_mbind outcome_bind]. by rewrite while_loop_S.
  - intros st d Hd. unfold dfsExplore_neighbor. by rewrite Hd.
  - intros st d Hd. unfold dfsExplore_neighbor. by rewrite Hd.
Qed.

Lemma bfsExplore_blocked maze sx sy ex ey :
  maze ≠ [] → blocked maze (grid_width maze) (maze_height maze) sx sy →
  bfsExplore sx sy ex ey maze =
  blocked_result (grid_width maze) (maze_height maze) sx sy ex ey [].
Proof.
  intros Hne Hb. destruct maze as [|row maze]; [done|]. unfold bfsExplore, blocked_result.
  rewrite maze_width_cons. destruct (loop_bound_SS (row :: maze)) as [n ->].
  cbn [mbind outcome_mbind outcome_bind]. rewrite while_loop_S. unfold bfsExplore_body at 1.
  destruct ((sx =? ex) && (sy =? ey)); [done|].
  rewrite (for_each_blocked _ _ _ _ _ _ Hb).
  - fold (no_entry (grid_width (row :: maze)) (maze_height (row :: maze)) sx sy).
    destruct (no_entry _ _ _ _); [|done].
    cbn [mbind outcome_mbind outcome_bind]. by rewrite while_loop_S.
  - intros [q V] d Hd. unfold bfsExplore_neighbor. by rewrite Hd.
  - intros [q V] d Hd. unfold bfsExplore_neighbor. by rewrite Hd.
Qed.

Lemma astarExplore_blocked maze sx sy ex ey :
  maze ≠ [] → blocked maze (grid_width maze) (maze_height maze) sx sy →
  astarExplore sx sy ex ey maze =
  blocked_result (grid_width maze) (maze_height maze) sx sy ex ey (mkAResult [] []).
Proof.
  intros Hne Hb. destruct maze as [|row maze]; [done|]. unfold astarExplore, blocked_result.
  rewrite maze_width_cons. destruct (loop_bound_SS (row :: maze)) as [n ->].
  cbn [mbind outcome_mbind outcome_bind]. rewrite while_loop_S.
  unfold astarExplore_body at 1.
  cbn [sort_by foldr insert_by as_openSet as_inClosed as_explored as_gScore as_cameFrom
       an_x an_y an_g].
  rewrite decide_False by apply not_elem_of_empty. rewrite !Z.eqb_refl.
  cbn [negb orb].
  destruct ((sx =? ex) && (sy =? ey)) eqn:Hgoal.
  - apply eqb_goal in Hgoal. rewrite <- Hgoal.
    cbn [mbind outcome_mbind outcome_bind as_gScore as_cameFrom as_explored].
    rewrite decide_True by (rewrite lookup_singleton_eq; by eexists).
    cbn [walk_back]. by rewrite decide_True.
  - apply eqb_goal_false in Hgoal.
    rewrite (for_each_blocked _ _ _ _ _ _ Hb).
    + fold (no_entry (grid_width (row :: maze)) (maze_height (row :: maze)) sx sy).
      destruct (no_entry _ _ _ _); [|done].
      cbn [mbind outcome_mbind outcome_bind]. rewrite while_loop_S.
      unfold astarExplore_body.
      cbn [sort_by foldr as_openSet as_inClosed as_explored as_gScore as_cameFrom
           mbind outcome_mbind outcome_bind].
      rewrite decide_False; [done|].
      rewrite lookup_singleton_ne by done. by intros [? ?].
    + intros st d Hd. unfold astarExplore_neighbor. cbn [an_x an_y]. by rewrite Hd.
    + intros st d Hd. unfold astarExplore_neighbor. cbn [an_x an_y]. by rewrite Hd.
Qed.

(** ** Start equal to goal *)

Lemma dfs_same maze x y : maze ≠ [] → dfs x y x y maze = Ret [].
Proof.
  intros Hne. destruct maze as [|row maze]; [done|]. unfold dfs.
  rewrite maze_width_cons. destruct (loop_bound_SS (row :: maze)) as [n ->].
  cbn [mbind outcome_mbind outcome_bind]. rewrite while_loop_S. unfold dfs_body.
  cbn [sn_x sn_y sn_path]. rewrite decide_False by apply not_elem_of_empty.
  by rewrite !Z.eqb_refl.
Qed.

Lemma bfs_same maze x y : maze ≠ [] → bfs x y x y maze = Ret [].
Proof.
  intros Hne. destruct maze as [|row maze]; [done|]. unfold bfs.
  rewrite maze_width_cons. destruct (loop_bound_SS (row :: maze)) as [n ->].
  cbn [mbind outcome_mbind outcome_bind]. rewrite while_loop_S. unfold bfs_body.
  cbn [sn_x sn_y sn_path]. by rewrite !Z.eqb_refl.
Qed.

Lemma astar_same maze x y : maze ≠ [] → astar x y x y maze = Ret [].
Proof.
  intros Hne. destruct maze as [|row maze]; [done|]. unfold astar.
  rewrite maze_width_cons. destruct (loop_bound_SS (row :: maze)) as [n ->].
  cbn [mbind outcome_mbind outcome_bind]. rewrite while_loop_S. unfold astar_body.
  cbn [sort_by foldr insert_by sn_x sn_y sn_path]. by rewrite !Z.eqb_refl.
Qed.

Lemma dfsExplore_same maze x y : maze ≠ [] → dfsExplore x y x y maze = Ret [].
Proof.
  intros Hne. destruct maze as [|row maze]; [done|]. unfold dfsExplore.
  rewrite maze_width_cons. destruct (loop_bound_SS (row :: maze)) as [n ->].
  cbn [mbind outcome_mbind outcome_bind]. rewrite while_loop_S. unfold dfsExplore_body.
  rewrite decide_False by apply not_elem_of_empty. by rewrite !Z.eqb_refl.
Qed.

Lemma bfsExplore_same maze x y : maze ≠ [] → bfsExplore x y x y maze = Ret [].
Proof.
  intros Hne. destruct maze as [|row maze]; [done|]. unfold bfsExplore.
  rewrite maze_width_cons. destruct (loop_bound_SS (row :: maze)) as [n ->].
  cbn [mbind outcome_mbind outcome_bind]. rewrite while_loop_S. unfold bfsExplore_body.
  by rewrite !Z.eqb_refl.
Qed.

Lemma astarExplore_same maze x y :
  maze ≠ [] → astarExplore x y x y maze = Ret (mkAResult [] []).
Proof.
  intros Hne. destruct maze as [|row maze]; [done|]. unfold astarExplore.
  rewrite maze_width_cons. destruct (loop_bound_SS (row :: maze)) as [n ->].
  cbn [mbind outcome_mbind outcome_bind]. rewrite while_loop_S. unfold astarExplore_body.
  cbn [sort_by foldr insert_by as_openSet as_inClosed as_explored as_gScore as_cameFrom
       an_x an_y an_g].
  rewrite decide_False by apply not_elem_of_empty. rewrite !Z.eqb_refl.
  cbn [negb orb andb mbind outcome_mbind outcome_bind as_gScore as_cameFrom as_explored].
  rewrite decide_True by (rewrite lookup_singleton_eq; by eexists).
  cbn [walk_back]. by rewrite decide_True.
Qed.

(** ** Deciding paths *)

Lemma stepb_sound maze u v : stepb maze u v = true → step maze u v.
Proof.
  unfold stepb. rewrite existsb_exists. intros (d & Hd & Hb).
  apply list_elem_of_In in Hd. apply andb_true_iff in Hb as [Hb Hw].
  apply andb_true_iff in Hb as [Hv Hin]. apply bool_decide_eq_true in Hv.
  apply inBounds_in_grid in Hin. exists d. split; [done|]. split; [done|]. split; [done|].
  destruct (cellAt maze u) as [cell|]; [|done]. exists cell. split; [done|].
  by apply negb_true_iff.
Qed.

Lemma is_pathb_sound maze s g p : is_pathb maze s g p = true → is_path maze s g p.
Proof.
  unfold is_pathb, is_path. rewrite andb_true_iff, bool_decide_eq_true.
  intros [Hc Hl]. split; [|done]. clear Hl. revert s Hc.
  induction p as [|v p IH]; intros s Hc; simpl in *; [done|].
  apply andb_true_iff in Hc as [Hs Hc]. split; [by apply stepb_sound|by apply IH].
Qed.

(** [bfs] decides reachability. *)
Lemma bfs_unreachable maze sx sy ex ey :
  maze ≠ [] → (sx, sy) ≠ (ex, ey) → bfs sx sy ex ey maze = Ret [] →
  ¬ reachable maze (sx, sy) (ex, ey).
Proof.
  intros Hne Hst Hbfs. pose proof (bfs_spec maze sx sy ex ey Hne) as Hspec.
  rewrite Hbfs in Hspec. destruct Hspec as [[[Hp _] _]|[_ ?]]; [|done].
  by apply is_path_nil_inv in Hp.
Qed.

(** From a start outside a rectangular grid only the start is reachable. *)
Lemma reachable_outside maze s t :
  rectangular maze → ¬ in_grid maze s → reachable maze s t → s = t.
Proof.
  intros Hrect Hout [p Hp]. destruct p as [|v p]; [by apply is_path_nil_inv in Hp|].
  apply is_path_cons in Hp as [(d & _ & _ & _ & cell & Hcell & _) _].
  rewrite (cellAt_outside maze s) in Hcell; done.
Qed.

Lemma in_grid_nonempty maze c : in_grid maze c → maze ≠ [].
Proof. intros [_ Hy] ->. unfold maze_height in Hy. simpl in Hy. lia. Qed.

(** ** [findPath] *)

(** [findPath] on a maze with at least one row, by kind of result. *)
Lemma findPath_path_mode maze sx sy ex ey m :
  maze ≠ [] → path_mode m = true →
  path_post maze (sx, sy) (ex, ey) (findPath sx sy ex ey m maze).
Proof.
  intros Hne Hm. destruct maze as [|row maze]; [done|].
  destruct m; try done; simpl.
  - by apply dfs_spec.
  - pose proof (bfs_spec (row :: maze) sx sy ex ey Hne) as Hs.
    destruct (bfs _ _ _ _ _) as [p| |]; simpl in *; [|done..].
    destruct Hs as [[[? ?] ?]|?]; [by left|by right].
  - pose proof (astar_spec (row :: maze) sx sy ex ey Hne) as Hs.
    destruct (astar _ _ _ _ _) as [p| |]; simpl in *; [|done..].
    destruct Hs as [[[? ?] ?]|?]; [by left|by right].
Qed.

Lemma findPath_explore_mode maze sx sy ex ey m :
  maze ≠ [] → path_mode m = false →
  explore_post maze (sx, sy) (ex, ey) (findPath sx sy ex ey m maze).
Proof.
  intros Hne Hm. destruct maze as [|row maze]; [done|].
  destruct m; try done; simpl.
  - by apply dfsExplore_spec.
  - by apply bfsExplore_spec.
  - pose proof (astarExplore_spec (row :: maze) sx sy ex ey Hne) as Hs.
    destruct (astarExplore _ _ _ _ _) as [r| |]; simpl in *; [|done..]. apply Hs.
Qed.

(** ** Concrete scenarios *)

(** A grid of one cell, start and goal in it. *)
Example scenario_single_cell :
  (λ m, findPath 0 0 0 0 m [[open_cell]]) <$> SEARCH_METHODS = repeat (Ret []) 6.
Proof. reflexivity. Qed.

(** Two cells side by side without a wall between them. *)
Example scenario_two_cells :
  (λ m, findPath 0 0 1 0 m [[open_cell; open_cell]]) <$> [DFS; BFS; ASTAR] =
  repeat (Ret [(1, 0)]) 3.
Proof. reflexivity. Qed.

(** A straight corridor: the three path modes return the same path. *)
Example scenario_corridor :
  (λ m, findPath 0 0 4 0 m corridor) <$> [DFS; BFS; ASTAR] =
  repeat (Ret [(1, 0); (2, 0); (3, 0); (4, 0)]) 3.
Proof. reflexivity. Qed.

(** In the open 3 x 3 grid the goal below the start is one move away; [dfs]
    tries East before South and returns a path of seven moves. *)
Example scenario_dfs_detour :
  findPath 0 0 0 1 BFS open_3x3 = Ret [(0, 1)] ∧
  findPath 0 0 0 1 ASTAR open_3x3 = Ret [(0, 1)] ∧
  findPath 0 0 0 1 DFS open_3x3 =
    Ret [(1, 0); (2, 0); (2, 1); (2, 2); (1, 2); (1, 1); (0, 1)].
Proof. split_and!; reflexivity. Qed.

(** With a wall around the goal, the path modes return nothing and the
    explore modes return the rest of the component of the start. *)
Example scenario_enclosed_goal :
  (λ m, findPath 0 0 2 0 m maze_split) <$> SEARCH_METHODS =
  [Ret []; Ret [(1, 0)]; Ret []; Ret [(1, 0)]; Ret []; Ret [(1, 0)]].
Proof. reflexivity. Qed.

(** The exploration order and the path of [astarExplore] around a wall. *)
Example scenario_astarExplore :
  astarExplore 0 0 1 0 maze_u =
  Ret (mkAResult [(0, 1); (1, 1); (1, 0)] [(0, 1); (1, 1); (1, 0)]).
Proof. reflexivity. Qed.

(** ** The claims *)

(** C1: on a rectangular grid with start and goal inside it, [findPath] with
    [ASTAR] returns, when the goal is reachable, a path from the start to the
    goal with the minimum number of moves of any wall-respecting path, and the
    empty sequence when the goal is unreachable. *)
Theorem findPath_ASTAR_shortest (maze : Maze) (sx sy ex ey : Z) :
  rectangular maze → in_grid maze (sx, sy) → in_grid maze (ex, ey) →
  (reachable maze (sx, sy) (ex, ey) →
   ∃ p, findPath sx sy ex ey ASTAR maze = Ret p ∧ shortest_path maze (sx, sy) (ex, ey) p) ∧
  (¬ reachable maze (sx, sy) (ex, ey) → findPath sx sy ex ey ASTAR maze = Ret []).
Proof.
  intros Hrect Hs Ht. pose proof (in_grid_nonempty _ _ Hs) as Hne.
  pose proof (astar_spec maze sx sy ex ey Hne) as Hspec.
  destruct maze as [|row maze]; [done|]. simpl.
  destruct (astar _ _ _ _ _) as [p| |]; simpl in Hspec; [| |done].
  - split.
    + intros Hr. exists p. split; [done|]. by destruct Hspec as [[? _]|[_ ?]].
    + intros Hnr. destruct Hspec as [[[Hp _] _]|[-> _]]; [|done].
      exfalso. apply Hnr. by exists p.
  - by apply rectangular_no_hole in Hspec.
Qed.

Lemma findPath_ASTAR_shortest_witness :
  ∃ p, findPath 0 0 1 0 ASTAR maze_u = Ret p ∧ shortest_path maze_u (0, 0) (1, 0) p.
Proof.
  apply (findPath_ASTAR_shortest maze_u 0 0 1 0).
  - repeat constructor.
  - apply inBounds_in_grid. reflexivity.
  - apply inBounds_in_grid. reflexivity.
  - exists [(0, 1); (1, 1); (1, 0)]. apply is_pathb_sound. reflexivity.
Defined.

(** C2: on a rectangular grid with start and goal inside it and the goal
    reachable, [findPath] with [BFS] returns a path with the minimum number of
    moves. *)
Theorem findPath_BFS_shortest (maze : Maze) (sx sy ex ey : Z) :
  rectangular maze → in_grid maze (sx, sy) → in_grid maze (ex, ey) →
  reachable maze (sx, sy) (ex, ey) →
  ∃ p, findPath sx sy ex ey BFS maze = Ret p ∧ shortest_path maze (sx, sy) (ex, ey) p.
Proof.
  intros Hrect Hs Ht Hr. pose proof (in_grid_nonempty _ _ Hs) as Hne.
  pose proof (bfs_spec maze sx sy ex ey Hne) as Hspec.
  destruct maze as [|row maze]; [done|]. simpl.
  destruct (bfs _ _ _ _ _) as [p| |]; simpl in Hspec; [| |done].
  - exists p. split; [done|]. by destruct Hspec as [[? _]|[_ ?]].
  - by apply rectangular_no_hole in Hspec.
Qed.

Lemma findPath_BFS_shortest_witness :
  ∃ p, findPath 0 0 1 0 BFS maze_u = Ret p ∧ shortest_path maze_u (0, 0) (1, 0) p.
Proof.
  apply (findPath_BFS_shortest maze_u 0 0 1 0).
  - repeat constructor.
  - apply inBounds_in_grid. reflexivity.
  - apply inBounds_in_grid. reflexivity.
  - exists [(0, 1); (1, 1); (1, 0)]. apply is_pathb_sound. reflexivity.
Defined.

(** The outcomes of [astar] and [astarExplore] on the same input. *)
Lemma astar_astarExplore_outcomes (maze : Maze) (sx sy ex ey : Z) :
  match astar sx sy ex ey maze, astarExplore sx sy ex ey maze with
  | Ret p, Ret r =>
      length p = length (path r) ∧
      (reachable maze (sx, sy) (ex, ey) →
       shortest_path maze (sx, sy) (ex, ey) p ∧
       shortest_path maze (sx, sy) (ex, ey) (path r)) ∧
      (¬ reachable maze (sx, sy) (ex, ey) → p = [] ∧ path r = [])
  | OutOfFuel, _ | _, OutOfFuel => False
  | a, b =>
      ¬ (rectangular maze ∧ in_grid maze (sx, sy)) ∧
      (rectangular maze → a = TypeError ∧ (∀ r, b ≠ Ret r))
  end.
Proof.
  destruct (decide (maze = [])) as [->|Hne].
  { simpl. split; [|done]. intros [_ [_ Hy]]. unfold maze_height in Hy. simpl in Hy. lia. }
  pose proof (astar_spec maze sx sy ex ey Hne) as Hp.
  pose proof (astarExplore_spec maze sx sy ex ey Hne) as Hr.
  assert (rectangular maze → ¬ in_grid maze (sx, sy) →
          (astar sx sy ex ey maze = TypeError ∧ astarExplore sx sy ex ey maze = TypeError) ∨
          (∃ p r, astar sx sy ex ey maze = Ret p ∧ astarExplore sx sy ex ey maze = Ret r))
    as Hout.
  { intros Hrect Hs.
    rewrite astar_blocked, astarExplore_blocked by (done || by apply blocked_outside).
    unfold blocked_result. destruct (_ && _); [right; eauto|].
    destruct (no_entry _ _ _ _); [right; eauto|by left]. }
  assert (∀ P, has_hole maze (sx, sy) → (rectangular maze → ¬ in_grid maze (sx, sy) → P) →
               ¬ (rectangular maze ∧ in_grid maze (sx, sy)) ∧ (rectangular maze → P)) as Hthrow.
  { intros P Hh HP. split.
    - intros [Hrect Hs]. by eapply rectangular_no_hole.
    - intros Hrect. apply HP; [done|]. intros Hs. by eapply rectangular_no_hole. }
  destruct (astar _ _ _ _ _) as [p| |] eqn:Ha, (astarExplore _ _ _ _ _) as [r| |] eqn:Hb;
    simpl in Hp, Hr; try done.
  - destruct Hr as [_ Hr].
    destruct Hp as [[Hp _]|[-> Hnp]], Hr as [Hr|[-> Hnr]].
    + split_and!; [|done|].
      * destruct Hp as [Hp1 Hp2], Hr as [Hr1 Hr2].
        apply Nat.le_antisymm; [by apply Hp2|by apply Hr2].
      * intros Hn. exfalso. apply Hn. exists p. apply Hp.
    + exfalso. apply Hnr. exists p. apply Hp.
    + exfalso. apply Hnp. exists (path r). apply Hr.
    + split_and!; done.
  - apply Hthrow; [done|]. intros Hrect Hs.
    destruct (Hout Hrect Hs) as [[? ?]|(? & ? & ? & ?)]; done.
  - apply Hthrow; [done|]. intros Hrect Hs.
    destruct (Hout Hrect Hs) as [[? ?]|(? & ? & ? & ?)]; done.
  - apply Hthrow; [done|]. intros Hrect Hs. split; [done|]. done.
Qed.

(** C3: for every grid, when [astar] and [astarExplore] both return, the path
    of the first and the path reconstructed from the predecessor map by the
    second have the same length: both are paths with the minimum number of
    moves when the goal is reachable, and both are empty when it is not.  Both
    return on a rectangular grid with the start inside it, neither needs more
    iterations than the bound, and on a rectangular grid one throws exactly
    when the other does. *)
Theorem astar_astarExplore_same_length (maze : Maze) (sx sy ex ey : Z) :
  astar sx sy ex ey maze ≠ OutOfFuel ∧
  astarExplore sx sy ex ey maze ≠ OutOfFuel ∧
  (∀ p r, astar sx sy ex ey maze = Ret p → astarExplore sx sy ex ey maze = Ret r →
     length p = length (path r) ∧
     (reachable maze (sx, sy) (ex, ey) →
      shortest_path maze (sx, sy) (ex, ey) p ∧
      shortest_path maze (sx, sy) (ex, ey) (path r)) ∧
     (¬ reachable maze (sx, sy) (ex, ey) → p = [] ∧ path r = [])) ∧
  (rectangular maze → in_grid maze (sx, sy) →
   ∃ p r, astar sx sy ex ey maze = Ret p ∧ astarExplore sx sy ex ey maze = Ret r) ∧
  (rectangular maze →
   (astar sx sy ex ey maze = TypeError ↔ astarExplore sx sy ex ey maze = TypeError)).
Proof.
  pose proof (astar_astarExplore_outcomes maze sx sy ex ey) as H.
  destruct (astar _ _ _ _ _) as [p| |], (astarExplore _ _ _ _ _) as [r| |]; try done.
  - split_and!; [done|done| | |done].
    + by intros ? ? [= <-] [= <-].
    + eauto.
  - destruct H as [Hn Hr]. split_and!; [done|done|done| |].
    + intros Hrect Hs. exfalso. apply Hn. done.
    + intros Hrect. by destruct (Hr Hrect).
  - destruct H as [Hn Hr]. split_and!; [done|done|done| |].
    + intros Hrect Hs. exfalso. apply Hn. done.
    + intros Hrect. destruct (Hr Hrect) as [_ Hr']. by destruct (Hr' r).
  - destruct H as [Hn Hr]. split_and!; [done|done|done| |done].
    intros Hrect Hs. exfalso. apply Hn. done.
Qed.

Lemma astar_astarExplore_same_length_witness :
  ∃ p r, astar 0 0 1 0 maze_u = Ret p ∧ astarExplore 0 0 1 0 maze_u = Ret r ∧
         length p = length (path r) ∧
         shortest_path maze_u (0, 0) (1, 0) p ∧ shortest_path maze_u (0, 0) (1, 0) (path r).
Proof.
  destruct (astar_astarExplore_same_length maze_u 0 0 1 0) as (_ & _ & Hlen & Hret & _).
  destruct Hret as (p & r & Hp & Hr);
    [repeat constructor|apply inBounds_in_grid; reflexivity|].
  destruct (Hlen p r Hp Hr) as (Heq & Hshort & _).
  exists p, r. split_and!; [done..| |]; apply Hshort;
    exists [(0, 1); (1, 1); (1, 0)]; apply is_pathb_sound; reflexivity.
Defined.

(** C4: for every grid and every strategy, [findPath] returns, and the
    sequence it returns does not contain the start coordinate. *)
Theorem findPath_excludes_start (maze : Maze) (sx sy ex ey : Z) (m : SearchMethod) :
  findPath sx sy ex ey m maze ≠ OutOfFuel ∧
  ∀ p, findPath sx sy ex ey m maze = Ret p → (sx, sy) ∉ p.
Proof.
  destruct (decide (maze = [])) as [->|Hne].
  { split; [done|]. intros p [= <-]. apply not_elem_of_nil. }
  destruct (path_mode m) eqn:Hm.
  - pose proof (findPath_path_mode maze sx sy ex ey m Hne Hm) as Hspec.
    destruct (findPath _ _ _ _ _ _) as [p| |]; simpl in Hspec; [|done..].
    split; [done|]. intros ? [= <-].
    destruct Hspec as [[_ Hnd]|[-> _]]; [|apply not_elem_of_nil].
    by apply NoDup_cons in Hnd as [? _].
  - pose proof (findPath_explore_mode maze sx sy ex ey m Hne Hm) as Hspec.
    destruct (findPath _ _ _ _ _ _) as [p| |]; simpl in Hspec; [|done..].
    split; [done|]. intros ? [= <-]. destruct Hspec as (Hnd & _).
    by apply NoDup_cons in Hnd as [? _].
Qed.

Lemma findPath_excludes_start_witness :
  findPath 0 0 1 0 DFS_EXPLORE maze_u = Ret [(0, 1); (1, 1); (1, 0)] ∧
  (0, 0) ∉ [(0, 1); (1, 1); (1, 0)].
Proof.
  split; [reflexivity|].
  apply (findPath_excludes_start maze_u 0 0 1 0 DFS_EXPLORE). reflexivity.
Defined.

(** C5: for a start inside the grid, the sequence returned by a path-mode
    strategy is empty or, prefixed with the start, a chain of legal moves that
    ends at the goal: each coordinate is one unit step along one axis after the
    one before it, the wall flag of the cell being left is false for the
    direction of that step, and every coordinate lies inside the grid. *)
Theorem path_mode_result_is_chain (maze : Maze) (sx sy ex ey : Z) (m : SearchMethod) :
  in_grid maze (sx, sy) → in_grid maze (ex, ey) → path_mode m = true →
  findPath sx sy ex ey m maze ≠ OutOfFuel ∧
  ∀ p, findPath sx sy ex ey m maze = Ret p →
       p = [] ∨
       (chain maze (sx, sy) p ∧ last ((sx, sy) :: p) = Some (ex, ey) ∧
        Forall (in_grid maze) ((sx, sy) :: p)).
Proof.
  intros Hs _ Hm. pose proof (in_grid_nonempty _ _ Hs) as Hne.
  pose proof (findPath_path_mode maze sx sy ex ey m Hne Hm) as Hspec.
  destruct (findPath _ _ _ _ _ _) as [p| |]; simpl in Hspec; [|done..].
  split; [done|]. intros ? [= <-]. destruct Hspec as [[Hp _]|[-> _]]; [right|by left].
  split_and!; [apply Hp|apply Hp|]. apply Forall_cons. split; [done|].
  by eapply is_path_Forall_in_grid.
Qed.

Lemma path_mode_result_is_chain_witness :
  findPath 0 0 1 0 DFS maze_u ≠ OutOfFuel ∧
  ∀ p, findPath 0 0 1 0 DFS maze_u = Ret p →
       p = [] ∨
       (chain maze_u (0, 0) p ∧ last ((0, 0) :: p) = Some (1, 0) ∧
        Forall (in_grid maze_u) ((0, 0) :: p)).
Proof.
  apply (path_mode_result_is_chain maze_u 0 0 1 0 DFS).
  - apply inBounds_in_grid. reflexivity.
  - apply inBounds_in_grid. reflexivity.
  - reflexivity.
Defined.

Lemma findPath_blocked maze sx sy ex ey m :
  maze ≠ [] → blocked maze (grid_width maze) (maze_height maze) sx sy →
  findPath sx sy ex ey m maze =
  blocked_result (grid_width maze) (maze_height maze) sx sy ex ey [].
Proof.
  intros Hne Hb. destruct maze as [|row maze]; [done|]. destruct m; simpl.
  - by apply dfs_blocked.
  - by apply dfsExplore_blocked.
  - by apply bfs_blocked.
  - by apply bfsExplore_blocked.
  - by apply astar_blocked.
  - rewrite astarExplore_blocked by done. unfold blocked_result.
    destruct (_ && _); [done|]. by destruct (no_entry _ _ _ _).
Qed.

(** C6, as the code has it: on a rectangular grid, a path-mode strategy
    returns the empty sequence without an error when the goal is outside the
    grid and the start inside, and when the start is outside the grid and is
    the goal or has none of its four neighbours inside the grid.  From a start
    outside the grid that is not the goal and has a neighbour inside the grid,
    the search reads [maze[y][x]] outside the grid and a [TypeError] is
    raised. *)
Theorem path_mode_outside_grid (maze : Maze) (sx sy ex ey : Z) (m : SearchMethod) :
  rectangular maze → path_mode m = true →
  (in_grid maze (sx, sy) → ¬ in_grid maze (ex, ey) →
   findPath sx sy ex ey m maze = Ret []) ∧
  (¬ in_grid maze (sx, sy) →
   ((sx, sy) = (ex, ey) ∨ ∀ d, d ∈ directions → ¬ in_grid maze (move (sx, sy) d)) →
   findPath sx sy ex ey m maze = Ret []) ∧
  (¬ in_grid maze (sx, sy) → (sx, sy) ≠ (ex, ey) →
   (∃ d, d ∈ directions ∧ in_grid maze (move (sx, sy) d)) →
   findPath sx sy ex ey m maze = TypeError).
Proof.
  intros Hrect Hm. split_and!.
  - intros Hs Ht. pose proof (in_grid_nonempty _ _ Hs) as Hne.
    pose proof (findPath_path_mode maze sx sy ex ey m Hne Hm) as Hspec.
    destruct (findPath _ _ _ _ _ _) as [p| |]; simpl in Hspec;
      [|by apply rectangular_no_hole in Hspec|done].
    destruct Hspec as [[Hp _]|[-> _]]; [|done].
    apply is_path_in_grid in Hp as [Heq|?]; [|done]. by rewrite <- Heq in Ht.
  - intros Hs Hcase. destruct (decide (maze = [])) as [->|Hne]; [done|].
    rewrite findPath_blocked by (done || by apply blocked_outside).
    unfold blocked_result. destruct ((sx =? ex) && (sy =? ey)) eqn:Hgoal; [done|].
    apply eqb_goal_false in Hgoal. destruct Hcase as [?|Hno]; [done|].
    apply no_entry_spec in Hno. by rewrite Hno.
  - intros Hs Hne' (d & Hd & Hin). pose proof (in_grid_nonempty _ _ Hin) as Hne.
    rewrite findPath_blocked by (done || by apply blocked_outside).
    unfold blocked_result. apply eqb_goal_false in Hne'. rewrite Hne'.
    destruct (no_entry _ _ _ _) eqn:Hno; [|done].
    exfalso. eapply no_entry_spec in Hno; [|exact Hd]. done.
Qed.

Lemma path_mode_outside_grid_witness :
  findPath 0 0 5 5 BFS maze_u = Ret [] ∧
  findPath 7 7 0 0 BFS maze_u = Ret [] ∧
  findPath (-1) 0 0 0 BFS maze_u = TypeError.
Proof.
  destruct (path_mode_outside_grid maze_u 0 0 5 5 BFS) as (H1 & _ & _);
    [repeat constructor|reflexivity|].
  destruct (path_mode_outside_grid maze_u 7 7 0 0 BFS) as (_ & H2 & _);
    [repeat constructor|reflexivity|].
  destruct (path_mode_outside_grid maze_u (-1) 0 0 0 BFS) as (_ & _ & H3);
    [repeat constructor|reflexivity|].
  split_and!.
  - apply H1; [apply inBounds_in_grid; reflexivity|].
    intros Hin. apply inBounds_in_grid in Hin. discriminate Hin.
  - apply H2.
    + intros Hin. apply inBounds_in_grid in Hin. discriminate Hin.
    + right. apply no_entry_spec. reflexivity.
  - apply H3.
    + intros Hin. apply inBounds_in_grid in Hin. discriminate Hin.
    + discriminate.
    + exists (mkDir 1 0 east). split; [|apply inBounds_in_grid; reflexivity].
      unfold directions. apply elem_of_cons. right. apply elem_of_cons. by left.
Defined.

(** C6 as stated fails: in a grid of one cell, from the start (-1, 0), which
    is outside the grid, [findPath] with [DFS] raises a [TypeError] rather than
    returning the empty sequence. *)
Lemma start_outside_counterexample :
  path_mode DFS = true ∧ ¬ in_grid [[open_cell]] (-1, 0) ∧
  findPath (-1) 0 0 0 DFS [[open_cell]] = TypeError ∧
  findPath (-1) 0 0 0 DFS [[open_cell]] ≠ Ret [].
Proof.
  split_and!; [reflexivity| |reflexivity|discriminate].
  intros Hin. apply inBounds_in_grid in Hin. discriminate Hin.
Qed.

(** C7: on a rectangular grid with the start inside it and the goal
    unreachable, a path-mode strategy returns the empty sequence and an
    explore-mode strategy returns the component reachable from the start
    without the start, each coordinate once and after a coordinate it is one
    legal move away from; the sequence is not empty when the component has
    more than one cell. *)
Theorem unreachable_goal_results (maze : Maze) (sx sy ex ey : Z) (m : SearchMethod) :
  rectangular maze → in_grid maze (sx, sy) → ¬ reachable maze (sx, sy) (ex, ey) →
  if path_mode m then findPath sx sy ex ey m maze = Ret []
  else ∃ l, findPath sx sy ex ey m maze = Ret l ∧
            NoDup l ∧ expansion_order maze (sx, sy) l ∧
            (∀ c, c ∈ l ↔ reachable maze (sx, sy) c ∧ c ≠ (sx, sy)) ∧
            ((∃ c, reachable maze (sx, sy) c ∧ c ≠ (sx, sy)) → l ≠ []).
Proof.
  intros Hrect Hs Hnr. pose proof (in_grid_nonempty _ _ Hs) as Hne.
  destruct (path_mode m) eqn:Hm.
  - pose proof (findPath_path_mode maze sx sy ex ey m Hne Hm) as Hspec.
    destruct (findPath _ _ _ _ _ _) as [p| |]; simpl in Hspec;
      [|by apply rectangular_no_hole in Hspec|done].
    destruct Hspec as [[Hp _]|[-> _]]; [|done]. exfalso. apply Hnr. by exists p.
  - pose proof (findPath_explore_mode maze sx sy ex ey m Hne Hm) as Hspec.
    destruct (findPath _ _ _ _ _ _) as [l| |]; simpl in Hspec;
      [|by apply rectangular_no_hole in Hspec|done].
    destruct Hspec as (Hnd & Hord & [[? _]|[_ Hall]]); [done|].
    apply NoDup_cons in Hnd as [Hsl Hnd].
    assert (∀ c, c ∈ l ↔ reachable maze (sx, sy) c ∧ c ≠ (sx, sy)) as Hiff.
    { intros c. split.
      - intros Hc. split; [|by intros ->].
        eapply expansion_order_reachable; [done|]. by right.
      - intros [Hc Hcs]. apply Hall in Hc. by apply elem_of_cons in Hc as [?|?]. }
    exists l. split_and!; [done..|].
    intros (c & Hc) ->. apply Hiff in Hc. by apply elem_of_nil in Hc.
Qed.

Lemma unreachable_goal_results_witness :
  findPath 0 0 2 0 BFS maze_split = Ret [] ∧
  ∃ l, findPath 0 0 2 0 BFS_EXPLORE maze_split = Ret l ∧
       NoDup l ∧ expansion_order maze_split (0, 0) l ∧
       (∀ c, c ∈ l ↔ reachable maze_split (0, 0) c ∧ c ≠ (0, 0)) ∧
       ((∃ c, reachable maze_split (0, 0) c ∧ c ≠ (0, 0)) → l ≠ []).
Proof.
  assert (rectangular maze_split) as Hrect by repeat constructor.
  assert (in_grid maze_split (0, 0)) as Hs by (apply inBounds_in_grid; reflexivity).
  assert (¬ reachable maze_split (0, 0) (2, 0)) as Hnr.
  { apply bfs_unreachable; [discriminate|discriminate|reflexivity]. }
  split.
  - exact (unreachable_goal_results maze_split 0 0 2 0 BFS Hrect Hs Hnr).
  - exact (unreachable_goal_results maze_split 0 0 2 0 BFS_EXPLORE Hrect Hs Hnr).
Defined.

(** C8: for every grid and every strategy, [findPath] from a start that is
    the goal returns the empty sequence. *)
Theorem findPath_start_is_goal (maze : Maze) (x y : Z) (m : SearchMethod) :
  findPath x y x y m maze = Ret [].
Proof.
  destruct (decide (maze = [])) as [->|Hne]; [done|].
  destruct maze as [|row maze]; [done|]. destruct m; simpl.
  - by apply dfs_same.
  - by apply dfsExplore_same.
  - by apply bfs_same.
  - by apply bfsExplore_same.
  - by apply astar_same.
  - by rewrite astarExplore_same.
Qed.

(** C9: for a grid with no row, or with a first row of length zero,
    [findPath] returns the empty sequence, whatever the start, the goal and
    the strategy. *)
Theorem findPath_empty_grid (maze : Maze) (sx sy ex ey : Z) (m : SearchMethod) :
  maze = [] ∨ (∃ rest, maze = [] :: rest) →
  findPath sx sy ex ey m maze = Ret [].
Proof.
  intros [->|[rest ->]]; [done|].
  rewrite findPath_blocked; [|done|apply blocked_zero_width].
  unfold blocked_result. change (grid_width ([] :: rest)) with 0.
  rewrite no_entry_zero_width. by destruct (_ && _).
Qed.

Lemma findPath_empty_grid_witness :
  findPath 0 0 3 4 ASTAR_EXPLORE [[]; [open_cell]] = Ret [] ∧
  findPath 0 0 3 4 DFS [] = Ret [].
Proof.
  split.
  - apply (findPath_empty_grid [[]; [open_cell]] 0 0 3 4 ASTAR_EXPLORE).
    right. by exists [[open_cell]].
  - apply (findPath_empty_grid [] 0 0 3 4 DFS). by left.
Defined.

(** C10: the sequence returned by a path-mode strategy contains no coordinate
    twice. *)
Theorem path_mode_result_simple (maze : Maze) (sx sy ex ey : Z) (m : SearchMethod) :
  path_mode m = true →
  findPath sx sy ex ey m maze ≠ OutOfFuel ∧
  ∀ p, findPath sx sy ex ey m maze = Ret p → NoDup p.
Proof.
  intros Hm. destruct (decide (maze = [])) as [->|Hne].
  { split; [done|]. intros p [= <-]. apply NoDup_nil_2. }
  pose proof (findPath_path_mode maze sx sy ex ey m Hne Hm) as Hspec.
  destruct (findPath _ _ _ _ _ _) as [p| |]; simpl in Hspec; [|done..].
  split; [done|]. intros ? [= <-].
  destruct Hspec as [[_ Hnd]|[-> _]]; [|apply NoDup_nil_2].
  by apply NoDup_cons in Hnd as [_ ?].
Qed.

Lemma path_mode_result_simple_witness :
  findPath 0 0 1 0 ASTAR maze_u ≠ OutOfFuel ∧
  ∀ p, findPath 0 0 1 0 ASTAR maze_u = Ret p → NoDup p.
Proof. apply (path_mode_result_simple maze_u 0 0 1 0 ASTAR). reflexivity. Defined.
